(** * Playback-announcement coordination of the podcast player

    A shallow embedding of the React front end: the episode sequencer of
    [EpisodeList], the three hooks [useSpeechAnnouncement],
    [useProgressPersistence] and [useMediaSession], and the handlers of
    [PodcastPlayer].  The browser is one event loop: every handler is a
    function on the state of the page, an [await] cuts an async handler in
    segments, and the suspended tail waits in the state until the loop
    resumes it. *)

From Stdlib Require Import ZArith NArith List Bool PrimFloat Lia.
From stdpp Require Import base gmap strings list.

Local Open Scope string_scope.
Local Open Scope list_scope.

(** ** JavaScript values *)

(** The numbers the sequencer computes with: [currentIndex] is an integral
    double far below 2^53, or [NaN] once a remainder by zero was taken. *)
Inductive JsNum :=
| Num (z : Z)
| NaN.

(** [a + 1] *)
Definition js_succ (a : JsNum) : JsNum :=
  match a with Num z => Num (z + 1) | NaN => NaN end.

(** [a - 1] *)
Definition js_pred (a : JsNum) : JsNum :=
  match a with Num z => Num (z - 1) | NaN => NaN end.

(** [a % b]: the remainder takes the sign of the dividend, and is [NaN]
    when the divisor is zero. *)
Definition js_rem (a b : JsNum) : JsNum :=
  match a, b with
  | Num x, Num y => if (y =? 0)%Z then NaN else Num (Z.rem x y)
  | _, _ => NaN
  end.

(** [a === 0] *)
Definition js_is_zero (a : JsNum) : bool :=
  match a with Num z => (z =? 0)%Z | NaN => false end.

(** [xs.length] *)
Definition js_length {A} (xs : list A) : JsNum := Num (Z.of_nat (length xs)).

(** [xs[i]]: [undefined] for a negative index, an index past the end, and
    [NaN]. *)
Definition js_index {A} (xs : list A) (i : JsNum) : option A :=
  match i with
  | Num z => if (0 <=? z)%Z then xs !! Z.to_nat z else None
  | NaN => None
  end.

(** Truthiness of a string that may be [undefined] or [null]: the empty
    string is falsy. *)
Definition truthy (s : option string) : bool :=
  match s with
  | Some s => negb (String.eqb s "")
  | None => false
  end.

(** Truthiness of an optional boolean prop. *)
Definition truthy_bool (b : option bool) : bool :=
  match b with Some true => true | _ => false end.

(** [s ?? d] *)
Definition nullish {A} (s : option A) (d : A) : A :=
  match s with Some x => x | None => d end.

(** The built-ins of the platform that the code calls and whose results
    depend on the locale or on the number printer. *)
Class Builtins := {
  (** [n.toString()] *)
  number_toString : float -> string;
  (** [Number(s)] *)
  Number_of : string -> float;
  (** [new Date(s).toLocaleDateString(undefined, { weekday: 'long' })] *)
  weekday_long : string -> string;
  (** [new Date(s).toLocaleTimeString(undefined,
        { hour: 'numeric', minute: '2-digit', hour12: true })] *)
  time_12h : string -> string
}.

(** ** Data of the page *)

Record Episode := {
  ep_id : string;
  ep_source : string;
  ep_audioUrl : string;
  ep_image : option string;
  ep_pubDate : option string
}.

Record Voice := { voice_name : string; voice_lang : string }.

Record Utterance := {
  utt_text : string;
  utt_voice : option Voice;
  utt_lang : option string
}.

(** What the promise of [announce] resolves with. *)
Inductive AnnounceResult := ended | interrupted.

(** The events of an utterance that the engine listens to. *)
Inductive UttEvent := UttEnd | UttError | UttPause | UttAbort.

(** The promise [announce] returns: already resolved, or resolved by an
    event of the utterance with the given position in [utterances]. *)
Inductive Promise :=
| Settled (r : AnnounceResult)
| OnUtterance (uid : nat).

(** The callbacks [EpisodeList] hands to the player. *)
Inductive Callback := ParentNext | ParentPrevious.

Record Props := {
  source : option string;
  audioUrl : option string;
  image : option string;
  loading : bool;
  pubDate : option string;
  isLastEpisode : option bool;
  onClickNext : option Callback;
  onClickPrevious : option Callback;
  onEnded : option Callback
}.

(** Which handler called [announce]. *)
Inductive Origin := UserPlay | BufferReady | NaturalEnd.

(** Calls that leave the page, in the order they are made. *)
Inductive Effect :=
| AudioPause
| AudioPlay
| AudioSeek (t : float)
| SynthCancel
| SynthSpeak (u : Utterance)
| Announce (o : Origin) (name : string) (isContinuing : bool)
           (pubDate : option string) (skipPrefix : bool)
| Uncaught (e : string).

(** What a timer runs when it fires. *)
Inductive TimerAction :=
| ClearSaveTimeout      (* useProgressPersistence: saveTimeout.current = null *)
| MediaResumePlay       (* useMediaSession: audio.play() after a skip *)
| CanPlayFallback.      (* PodcastPlayer: the next-tick check that does nothing *)

Record Timer := { timer_id : positive; timer_due : N; timer_action : TimerAction }.

(** The tail of an async handler that waits at an [await].  A tail of
    [handleCanPlay] remembers which listener it is, for the
    [removeEventListener] at its end. *)
Inductive Cont :=
| CanPlay_announced (listener : nat) (progress : float) (p : Promise)
| CanPlay_played (listener : nat)
| Play_announced (progress : float) (p : Promise)
| Play_played
| Ended_announced (p : Promise).

(** ** The state of the page *)

(** What the browser offers, and the clock of the event loop in
    milliseconds. *)
Record Env := {
  hasSpeechSynthesis : bool;      (* 'speechSynthesis' in window *)
  hasMediaSession : bool;         (* 'mediaSession' in navigator *)
  voices : list Voice;            (* speechSynthesis.getVoices() *)
  now : N
}.

(** The module-level variables of useSpeechAnnouncement, and every
    utterance handed to [speechSynthesis.speak] with the state of the
    promise that waits for it. *)
Record Speech := {
  cachedGoogleVoice : option Voice;
  isAnnouncing : bool;
  utterances : list (Utterance * option AnnounceResult)
}.

(** The [useState] cells of EpisodeList. *)
Record ListState := {
  episodes : list Episode;
  currentIndex : JsNum;
  listLoading : bool
}.

(** The [useRef] cells of PodcastPlayer and of its hooks, and the
    [canplay] listener on the audio element with the props it closed
    over. *)
Record PlayerRefs := {
  announcedRef : bool;
  skipJustHappenedRef : bool;
  userPlayedRef : bool;
  saveTimeout : option positive;
  canplayListener : option (nat * Props)
}.

(** Pending timers and suspended async handlers. *)
Record Loop := {
  timers : list Timer;
  nextTimer : positive;
  nextListener : nat;
  suspended : list Cont
}.

Record World := {
  env : Env;
  speech : Speech;
  localStorage : gmap string string;
  rootMounted : bool;             (* React has the component tree mounted *)
  list_state : ListState;
  refs : PlayerRefs;
  mediaHandlers : option Props;   (* action handlers of navigator.mediaSession *)
  loop : Loop;
  trace : list Effect
}.

#[global] Instance JsNum_eq_dec : EqDecision JsNum.
Proof. solve_decision. Defined.
#[global] Instance Episode_eq_dec : EqDecision Episode.
Proof. solve_decision. Defined.
#[global] Instance ListState_eq_dec : EqDecision ListState.
Proof. solve_decision. Defined.

(** *** Field updates *)

Definition with_now (n : N) (e : Env) : Env :=
  {| hasSpeechSynthesis := hasSpeechSynthesis e; hasMediaSession := hasMediaSession e;
     voices := voices e; now := n |}.
Definition with_voices (vs : list Voice) (e : Env) : Env :=
  {| hasSpeechSynthesis := hasSpeechSynthesis e; hasMediaSession := hasMediaSession e;
     voices := vs; now := now e |}.

Definition with_cachedGoogleVoice (v : option Voice) (s : Speech) : Speech :=
  {| cachedGoogleVoice := v; isAnnouncing := isAnnouncing s; utterances := utterances s |}.
Definition with_isAnnouncing (b : bool) (s : Speech) : Speech :=
  {| cachedGoogleVoice := cachedGoogleVoice s; isAnnouncing := b; utterances := utterances s |}.
Definition with_utterances (us : list (Utterance * option AnnounceResult)) (s : Speech) : Speech :=
  {| cachedGoogleVoice := cachedGoogleVoice s; isAnnouncing := isAnnouncing s; utterances := us |}.

Definition with_episodes (es : list Episode) (l : ListState) : ListState :=
  {| episodes := es; currentIndex := currentIndex l; listLoading := listLoading l |}.
Definition with_currentIndex (i : JsNum) (l : ListState) : ListState :=
  {| episodes := episodes l; currentIndex := i; listLoading := listLoading l |}.
Definition with_listLoading (b : bool) (l : ListState) : ListState :=
  {| episodes := episodes l; currentIndex := currentIndex l; listLoading := b |}.

Definition with_announcedRef (b : bool) (r : PlayerRefs) : PlayerRefs :=
  {| announcedRef := b; skipJustHappenedRef := skipJustHappenedRef r;
     userPlayedRef := userPlayedRef r; saveTimeout := saveTimeout r;
     canplayListener := canplayListener r |}.
Definition with_skipJustHappenedRef (b : bool) (r : PlayerRefs) : PlayerRefs :=
  {| announcedRef := announcedRef r; skipJustHappenedRef := b;
     userPlayedRef := userPlayedRef r; saveTimeout := saveTimeout r;
     canplayListener := canplayListener r |}.
Definition with_userPlayedRef (b : bool) (r : PlayerRefs) : PlayerRefs :=
  {| announcedRef := announcedRef r; skipJustHappenedRef := skipJustHappenedRef r;
     userPlayedRef := b; saveTimeout := saveTimeout r;
     canplayListener := canplayListener r |}.
Definition with_saveTimeout (t : option positive) (r : PlayerRefs) : PlayerRefs :=
  {| announcedRef := announcedRef r; skipJustHappenedRef := skipJustHappenedRef r;
     userPlayedRef := userPlayedRef r; saveTimeout := t;
     canplayListener := canplayListener r |}.
Definition with_canplayListener (l : option (nat * Props)) (r : PlayerRefs) : PlayerRefs :=
  {| announcedRef := announcedRef r; skipJustHappenedRef := skipJustHappenedRef r;
     userPlayedRef := userPlayedRef r; saveTimeout := saveTimeout r;
     canplayListener := l |}.

Definition with_timers (ts : list Timer) (l : Loop) : Loop :=
  {| timers := ts; nextTimer := nextTimer l; nextListener := nextListener l;
     suspended := suspended l |}.
Definition with_nextTimer (n : positive) (l : Loop) : Loop :=
  {| timers := timers l; nextTimer := n; nextListener := nextListener l;
     suspended := suspended l |}.
Definition with_nextListener (n : nat) (l : Loop) : Loop :=
  {| timers := timers l; nextTimer := nextTimer l; nextListener := n;
     suspended := suspended l |}.
Definition with_suspended (cs : list Cont) (l : Loop) : Loop :=
  {| timers := timers l; nextTimer := nextTimer l; nextListener := nextListener l;
     suspended := cs |}.

Definition on_env (f : Env -> Env) (w : World) : World :=
  {| env := f (env w); speech := speech w; localStorage := localStorage w;
     rootMounted := rootMounted w; list_state := list_state w; refs := refs w;
     mediaHandlers := mediaHandlers w; loop := loop w; trace := trace w |}.
Definition on_speech (f : Speech -> Speech) (w : World) : World :=
  {| env := env w; speech := f (speech w); localStorage := localStorage w;
     rootMounted := rootMounted w; list_state := list_state w; refs := refs w;
     mediaHandlers := mediaHandlers w; loop := loop w; trace := trace w |}.
Definition on_localStorage (f : gmap string string -> gmap string string) (w : World) : World :=
  {| env := env w; speech := speech w; localStorage := f (localStorage w);
     rootMounted := rootMounted w; list_state := list_state w; refs := refs w;
     mediaHandlers := mediaHandlers w; loop := loop w; trace := trace w |}.
Definition with_rootMounted (b : bool) (w : World) : World :=
  {| env := env w; speech := speech w; localStorage := localStorage w; rootMounted := b;
     list_state := list_state w; refs := refs w; mediaHandlers := mediaHandlers w;
     loop := loop w; trace := trace w |}.
Definition on_list_state (f : ListState -> ListState) (w : World) : World :=
  {| env := env w; speech := speech w; localStorage := localStorage w;
     rootMounted := rootMounted w; list_state := f (list_state w); refs := refs w;
     mediaHandlers := mediaHandlers w; loop := loop w; trace := trace w |}.
Definition on_refs (f : PlayerRefs -> PlayerRefs) (w : World) : World :=
  {| env := env w; speech := speech w; localStorage := localStorage w;
     rootMounted := rootMounted w; list_state := list_state w; refs := f (refs w);
     mediaHandlers := mediaHandlers w; loop := loop w; trace := trace w |}.
Definition with_mediaHandlers (h : option Props) (w : World) : World :=
  {| env := env w; speech := speech w; localStorage := localStorage w;
     rootMounted := rootMounted w; list_state := list_state w; refs := refs w;
     mediaHandlers := h; loop := loop w; trace := trace w |}.
Definition on_loop (f : Loop -> Loop) (w : World) : World :=
  {| env := env w; speech := speech w; localStorage := localStorage w;
     rootMounted := rootMounted w; list_state := list_state w; refs := refs w;
     mediaHandlers := mediaHandlers w; loop := f (loop w); trace := trace w |}.
Definition on_trace (f : list Effect -> list Effect) (w : World) : World :=
  {| env := env w; speech := speech w; localStorage := localStorage w;
     rootMounted := rootMounted w; list_state := list_state w; refs := refs w;
     mediaHandlers := mediaHandlers w; loop := loop w; trace := f (trace w) |}.

(** ** Handlers: state passing with exceptions *)

(** A running handler either completes with a value or stops at an
    uncaught exception; what it wrote to the state before stays. *)
Inductive Result (A : Type) :=
| Ok (a : A)
| Throw (e : string).
Arguments Ok {A} a.
Arguments Throw {A} e.

Definition M (A : Type) : Type := World -> World * Result A.

#[global] Instance M_ret : MRet M := fun A a w => (w, Ok a).
#[global] Instance M_bind : MBind M := fun A B f m w =>
  match m w with
  | (w', Ok a) => f a w'
  | (w', Throw e) => (w', Throw e)
  end.

Definition get : M World := fun w => (w, Ok w).
Definition modify (f : World -> World) : M unit := fun w => (f w, Ok tt).
Definition throw {A} (e : string) : M A := fun w => (w, Throw e).
Definition skip : M unit := mret tt.
Definition when (b : bool) (m : M unit) : M unit := if b then m else skip.
Definition emit (e : Effect) : M unit := modify (on_trace (fun t => t ++ [e])).
Definition exec {A} (m : M A) (w : World) : World := fst (m w).

(** [setTimeout(action, delay)]: returns the handle of the new timer. *)
Definition setTimeout (action : TimerAction) (delay : N) : M positive := fun w =>
  let id := nextTimer (loop w) in
  let t := {| timer_id := id; timer_due := (now (env w) + delay)%N; timer_action := action |} in
  (on_loop (fun l => with_nextTimer (Pos.succ id) (with_timers (timers l ++ [t]) l)) w, Ok id).

(** Parks the tail of an async handler at its [await]. *)
Definition suspend (c : Cont) : M unit :=
  modify (on_loop (fun l => with_suspended (suspended l ++ [c]) l)).

(** ** EpisodeList.tsx: the episode sequencer *)

Module EpisodeList.

(** [setCurrentIndex((prev) => (prev + 1) % episodes.length)] *)
Definition handleNext (eps : list Episode) (prev : JsNum) : JsNum :=
  js_rem (js_succ prev) (js_length eps).

(** [setCurrentIndex((prev) => (prev === 0 ? episodes.length - 1 : prev - 1))] *)
Definition handlePrevious (eps : list Episode) (prev : JsNum) : JsNum :=
  if js_is_zero prev then js_pred (js_length eps) else js_pred prev.

(** [episodes[currentIndex] ?? null] *)
Definition currentEpisode (l : ListState) : option Episode :=
  js_index (episodes l) (currentIndex l).

(** The props of the one [<PodcastPlayer>] the component renders. *)
Definition render (l : ListState) : Props :=
  let cur := currentEpisode l in
  {| source := Some (nullish (ep_source <$> cur) "");
     audioUrl := Some (nullish (ep_audioUrl <$> cur) "");
     image := cur ≫= ep_image;
     loading := listLoading l;
     pubDate := cur ≫= ep_pubDate;
     isLastEpisode := None;
     onClickNext := Some ParentNext;
     onClickPrevious := Some ParentPrevious;
     onEnded := Some ParentNext |}.

(** Calling a callback prop: a functional update of [currentIndex]. *)
Definition invoke (c : Callback) : M unit :=
  modify (on_list_state (fun l =>
    match c with
    | ParentNext => with_currentIndex (handleNext (episodes l) (currentIndex l)) l
    | ParentPrevious => with_currentIndex (handlePrevious (episodes l) (currentIndex l)) l
    end)).

(** The [then] of the fetch: a non-empty answer replaces the list. *)
Definition fetched (data : list Episode) : M unit :=
  when (0 <? length data)%nat
    (modify (on_list_state (fun l => with_currentIndex (Num 0) (with_episodes data l))));;
  modify (on_list_state (with_listLoading false)).

(** The [catch] of the fetch. *)
Definition fetchFailed : M unit :=
  modify (on_list_state (with_listLoading false)).

End EpisodeList.

(** Where no player is rendered no prop has a value. *)
Definition unrendered : Props :=
  {| source := None; audioUrl := None; image := None; loading := false; pubDate := None;
     isLastEpisode := None; onClickNext := None; onClickPrevious := None; onEnded := None |}.

(** The props of the player as last rendered; once React has unmounted
    the tree there is no player. *)
Definition currentProps (w : World) : Props :=
  if rootMounted w then EpisodeList.render (list_state w) else unrendered.

(** The audio element exists while [<AudioPlayer>] is rendered:
    [!loading && audioUrl]. *)
Definition audioMounted (p : Props) : bool := negb (loading p) && truthy (audioUrl p).

(** [audioRef.current?.audio?.current] is there. *)
Definition audioRefCurrent : M bool := fun w => (w, Ok (audioMounted (currentProps w))).

(** [audioEl.currentTime = t]: the attribute is a [double], so that
    assigning [NaN] or an infinity is a TypeError and the position stays. *)
Definition setCurrentTime (t : float) : M unit :=
  if PrimFloat.is_finite t then emit (AudioSeek t)
  else throw "TypeError: the provided double value is non-finite".

(** [clearTimeout(handle)] *)
Definition cancelTimer (handle : positive) (ts : list Timer) : list Timer :=
  List.filter (fun t => negb (Pos.eqb (timer_id t) handle)) ts.

Definition clearTimeout (handle : positive) : M unit :=
  modify (on_loop (fun l => with_timers (cancelTimer handle (timers l)) l)).

(** ** useSpeechAnnouncement.ts: the announcement engine *)

Module SpeechAnnouncement.

Definition loadVoices : M unit :=
  modify (fun w => on_speech (with_cachedGoogleVoice
    (find (fun v => String.eqb (voice_name v) "Google UK English Female") (voices (env w)))) w).

(** The sentence that is spoken. *)
Definition announcementText `{Builtins} (name : string) (isContinuing : bool)
    (pubDate : option string) (skipPrefix : bool) : string :=
  if skipPrefix then name
  else if truthy pubDate then
    let dayOfWeek := weekday_long (nullish pubDate "") in
    let timeString := time_12h (nullish pubDate "") in
    if isContinuing
    then "Continuing " +:+ name +:+ ", from " +:+ dayOfWeek +:+ " at " +:+ timeString +:+ "."
    else "From " +:+ name +:+ ", on " +:+ dayOfWeek +:+ " at " +:+ timeString +:+ "."
  else "From " +:+ name +:+ ".".

Definition newUtterance (text : string) (voice : option Voice) : Utterance :=
  match voice with
  | Some v => {| utt_text := text; utt_voice := Some v; utt_lang := Some (voice_lang v) |}
  | None => {| utt_text := text; utt_voice := None; utt_lang := None |}
  end.

(** [speechSynthesis.speak(utterance)] with the four listeners attached:
    the promise of the utterance is pending. *)
Definition speak (u : Utterance) : M nat := fun w =>
  let uid := length (utterances (speech w)) in
  (on_trace (fun t => t ++ [SynthSpeak u])
     (on_speech (fun s => with_utterances (utterances s ++ [(u, None)]) s) w), Ok uid).

Definition announcePodcastNameAndWait `{Builtins} (name : string) (isContinuing : bool)
    (pubDate : option string) (skipPrefix : bool) : M Promise :=
  w ← get;
  if isAnnouncing (speech w) || negb (hasSpeechSynthesis (env w))
  then mret (Settled ended)
  else
    modify (on_speech (with_isAnnouncing true));;
    emit SynthCancel;;
    let text := announcementText name isContinuing pubDate skipPrefix in
    w ← get;
    let utterance := newUtterance text (cachedGoogleVoice (speech w)) in
    uid ← speak utterance;
    mret (OnUtterance uid).

(** [handleEndOrAbort(type)] of the utterance [uid]: the flag is cleared
    each time, the promise keeps its first resolution. *)
Definition handleEndOrAbort (uid : nat) (type : AnnounceResult) : M unit :=
  modify (on_speech (with_isAnnouncing false));;
  modify (on_speech (fun s => with_utterances
    (alter (fun up => (fst up, Some (nullish (snd up) type))) uid (utterances s)) s)).

Definition resultOf (e : UttEvent) : AnnounceResult :=
  match e with
  | UttEnd | UttError => ended
  | UttPause | UttAbort => interrupted
  end.

(** An event of the synthesizer on an utterance that was spoken. *)
Definition utteranceEvent (uid : nat) (e : UttEvent) : M unit :=
  w ← get;
  when (uid <? length (utterances (speech w)))%nat (handleEndOrAbort uid (resultOf e)).

(** The [announce] of the hook. *)
Definition announce `{Builtins} := announcePodcastNameAndWait.

(** [speechSynthesis.cancel(); isAnnouncing = false;] The global
    [speechSynthesis] is read without the test the other functions make:
    where the browser has none this is a ReferenceError. *)
Definition cancelAnnouncement : M unit :=
  w ← get;
  if hasSpeechSynthesis (env w)
  then emit SynthCancel;; modify (on_speech (with_isAnnouncing false))
  else throw "ReferenceError: speechSynthesis is not defined".

Definition resetAnnouncedFlag : M unit := modify (on_refs (with_announcedRef false)).
Definition setAnnouncedFlag : M unit := modify (on_refs (with_announcedRef true)).
Definition hasAnnounced : M bool := fun w => (w, Ok (announcedRef (refs w))).

(** What a settled promise resolved with. *)
Definition settled (p : Promise) (w : World) : option AnnounceResult :=
  match p with
  | Settled r => Some r
  | OnUtterance uid => (utterances (speech w) !! uid) ≫= snd
  end.

End SpeechAnnouncement.

(** ** useProgressPersistence.ts: the progress store *)

Module ProgressPersistence.

Definition SAVE_INTERVAL_MS : N := 5000.

(** [`progress_${audioUrl}`] *)
Definition key (audioUrl : option string) : string := "progress_" +:+ nullish audioUrl "".

Definition loadProgress `{Builtins} (p : Props) : M unit :=
  mounted ← audioRefCurrent;
  if negb (truthy (audioUrl p)) || negb mounted then skip
  else
    w ← get;
    let savedTime := localStorage w !! key (audioUrl p) in
    when (truthy savedTime) (setCurrentTime (Number_of (nullish savedTime ""))).

(** [currentTime] is the position the audio element reports at the
    moment of the call. *)
Definition handleListen `{Builtins} (p : Props) (currentTime : float) : M unit :=
  mounted ← audioRefCurrent;
  if negb mounted || negb (truthy (audioUrl p)) then skip
  else
    w ← get;
    if bool_decide (is_Some (saveTimeout (refs w))) then skip
    else
      modify (on_localStorage (insert (key (audioUrl p)) (number_toString currentTime)));;
      handle ← setTimeout ClearSaveTimeout SAVE_INTERVAL_MS;
      modify (on_refs (with_saveTimeout (Some handle))).

(** The body of the timer [handleListen] starts. *)
Definition saveTimeoutElapsed : M unit := modify (on_refs (with_saveTimeout None)).

(** The cleanup of the effect "cleanup timeout on unmount". *)
Definition cleanupOnUnmount : M unit :=
  w ← get;
  match saveTimeout (refs w) with
  | Some handle => clearTimeout handle
  | None => skip
  end.

Definition clearProgress (p : Props) : M unit :=
  when (truthy (audioUrl p)) (modify (on_localStorage (delete (key (audioUrl p))))).

Definition getSavedProgress `{Builtins} (p : Props) : M float :=
  if negb (truthy (audioUrl p)) then mret 0%float
  else
    w ← get;
    let savedTime := localStorage w !! key (audioUrl p) in
    mret (if truthy savedTime then Number_of (nullish savedTime "") else 0%float).

End ProgressPersistence.

(** ** useMediaSession.ts: lock-screen and hardware controls *)

Module MediaSession.

Definition RESUME_DELAY_MS : N := 250.

(** The body of the effect: metadata and the four action handlers, which
    close over the props of this render. *)
Definition register (p : Props) : M unit :=
  w ← get;
  if negb (truthy (audioUrl p)) || negb (truthy (source p)) || negb (hasMediaSession (env w))
  then skip
  else modify (with_mediaHandlers (Some p)).

(** The cleanup of the effect. *)
Definition unregister : M unit :=
  w ← get;
  when (hasMediaSession (env w)) (modify (with_mediaHandlers None)).

(** [audioRef.current?.audio?.current?.play()] *)
Definition play : M unit :=
  mounted ← audioRefCurrent; when mounted (emit AudioPlay).

(** [audioRef.current?.audio?.current?.pause()] *)
Definition pause : M unit :=
  mounted ← audioRefCurrent; when mounted (emit AudioPause).

Definition previoustrack (p : Props) : M unit :=
  match onClickPrevious p with
  | Some onClickPrevious =>
      modify (on_refs (with_skipJustHappenedRef true));;
      SpeechAnnouncement.cancelAnnouncement;;
      EpisodeList.invoke onClickPrevious;;
      _ ← setTimeout MediaResumePlay RESUME_DELAY_MS;
      skip
  | None => skip
  end.

Definition nexttrack (p : Props) : M unit :=
  match onClickNext p with
  | Some onClickNext =>
      modify (on_refs (with_skipJustHappenedRef true));;
      SpeechAnnouncement.cancelAnnouncement;;
      EpisodeList.invoke onClickNext;;
      _ ← setTimeout MediaResumePlay RESUME_DELAY_MS;
      skip
  | None => skip
  end.

End MediaSession.

(** ** PodcastPlayer.tsx: the playback coordinator *)

Module PodcastPlayer.

Import SpeechAnnouncement ProgressPersistence.

Definition farewell : string := "That's all for today. See you next time!".

(** [audioEl.removeEventListener('canplay', handleCanPlay)] for the
    listener created by the effect run number [listener]. *)
Definition removeCanPlayListener (listener : nat) : M unit :=
  modify (on_refs (fun r =>
    match canplayListener r with
    | Some (l, _) => if (l =? listener)%nat then with_canplayListener None r else r
    | None => r
    end)).

(** [handleCanPlay] up to [await announce(...)]. *)
Definition handleCanPlay `{Builtins} (listener : nat) (p : Props) : M unit :=
  announced ← hasAnnounced;
  if (announced : bool) then
    modify (on_refs (with_skipJustHappenedRef false));;
    removeCanPlayListener listener
  else
    setAnnouncedFlag;;
    emit AudioPause;;
    progress ← getSavedProgress p;
    emit (Announce BufferReady (nullish (source p) "") (2 <? progress)%float (pubDate p) false);;
    promise ← announce (nullish (source p) "") (2 <? progress)%float (pubDate p) false;
    suspend (CanPlay_announced listener progress promise).

(** [handleCanPlay] after the last [await]. *)
Definition handleCanPlay_end (listener : nat) : M unit :=
  modify (on_refs (with_skipJustHappenedRef false));;
  removeCanPlayListener listener.

(** [handleCanPlay] from the announcement result to [await audioEl.play()]
    or, without playback, to its end. *)
Definition handleCanPlay_resume (listener : nat) (progress : float)
    (announcementResult : AnnounceResult) : M unit :=
  when (0 <? progress)%float (setCurrentTime progress);;
  match announcementResult with
  | ended => emit AudioPlay;; suspend (CanPlay_played listener)
  | interrupted => handleCanPlay_end listener
  end.

(** The effect "announce + autoplay after a skip". *)
Definition canPlayEffect (p : Props) : M unit :=
  mounted ← audioRefCurrent;
  w ← get;
  if negb (truthy (audioUrl p)) || negb (truthy (source p)) || negb mounted then skip
  else if negb (skipJustHappenedRef (refs w)) then skip
  else
    let listener := nextListener (loop w) in
    modify (on_loop (with_nextListener (S listener)));;
    modify (on_refs (with_canplayListener (Some (listener, p))));;
    _ ← setTimeout CanPlayFallback 0;
    skip.

(** The cleanup of that effect. *)
Definition canPlayCleanup : M unit := modify (on_refs (with_canplayListener None)).

(** The effect "reset announced flag for new episodes". *)
Definition resetEffect (p : Props) : M unit :=
  when (truthy (audioUrl p)) resetAnnouncedFlag.

(** [handleEnded] up to [await announce(...)], or to its end. *)
Definition handleEnded `{Builtins} (p : Props) : M unit :=
  clearProgress p;;
  match onEnded p with Some onEnded => EpisodeList.invoke onEnded | None => skip end;;
  if truthy_bool (isLastEpisode p) then
    emit (Announce NaturalEnd farewell false None true);;
    promise ← announce farewell false None true;
    suspend (Ended_announced promise)
  else
    match onClickNext p with
    | Some onClickNext =>
        modify (on_refs (with_skipJustHappenedRef true));;
        EpisodeList.invoke onClickNext
    | None => skip
    end.

(** [handlePlay] up to [await announce(...)]. *)
Definition handlePlay `{Builtins} (p : Props) : M unit :=
  mounted ← audioRefCurrent;
  if negb mounted || negb (truthy (source p)) || negb (truthy (audioUrl p)) then skip
  else
    modify (on_refs (with_userPlayedRef true));;
    announced ← hasAnnounced;
    if (announced : bool) then skip
    else
      setAnnouncedFlag;;
      emit AudioPause;;
      progress ← getSavedProgress p;
      emit (Announce UserPlay (nullish (source p) "") (2 <? progress)%float (pubDate p) false);;
      promise ← announce (nullish (source p) "") (2 <? progress)%float (pubDate p) false;
      suspend (Play_announced progress promise).

(** [handlePlay] from the announcement result to [await audioEl.play()]
    or, without playback, to its end. *)
Definition handlePlay_resume (progress : float) (announcementResult : AnnounceResult) : M unit :=
  when (0 <? progress)%float (setCurrentTime progress);;
  match announcementResult with
  | ended => emit AudioPlay;; suspend Play_played
  | interrupted => skip
  end.

(** The skip buttons of the player. *)
Definition handleNext (p : Props) : M unit :=
  cancelAnnouncement;;
  modify (on_refs (with_skipJustHappenedRef true));;
  match onClickNext p with Some onClickNext => EpisodeList.invoke onClickNext | None => skip end.

Definition handlePrevious (p : Props) : M unit :=
  cancelAnnouncement;;
  modify (on_refs (with_skipJustHappenedRef true));;
  match onClickPrevious p with
  | Some onClickPrevious => EpisodeList.invoke onClickPrevious
  | None => skip
  end.

End PodcastPlayer.

(** ** The event loop *)

(** What the browser, the user and the operating system can make happen. *)
Inductive Event :=
| Tick (dt : N)                          (* time passes *)
| TimerFire (k : nat)                    (* the k-th pending timer, once due *)
| Fetched (data : list Episode)          (* the episode request answered *)
| FetchFailed
| VoicesChanged (vs : list Voice)        (* speechSynthesis.onvoiceschanged *)
| AudioPlayed                            (* onPlay of the audio player *)
| AudioCanPlay                           (* canplay of the audio element *)
| AudioListen (currentTime : float)      (* onListen, with the position played *)
| AudioEnded                             (* onEnded *)
| ClickNext                              (* the skip buttons of the player *)
| ClickPrevious
| MediaPlay                              (* the actions of navigator.mediaSession *)
| MediaPause
| MediaPreviousTrack
| MediaNextTrack
| SpeechEvent (uid : nat) (e : UttEvent) (* an event of a spoken utterance *)
| Resume (k : nat).                      (* the k-th suspended handler goes on *)

(** The effects of PodcastPlayer after a render, by the dependencies that
    changed: first the cleanups, then the bodies, in the order of the
    hooks.  An exception in a body keeps the bodies after it from
    running. *)
Definition commit `{Builtins} (old : ListState) : M unit :=
  w ← get;
  let before := EpisodeList.render old in
  let p := currentProps w in
  let rendered := bool_decide (old ≠ list_state w) in
  let urlChanged := bool_decide (audioUrl before ≠ audioUrl p) in
  let canPlayDeps :=
    urlChanged || bool_decide (source before ≠ source p)
               || bool_decide (pubDate before ≠ pubDate p) in
  when rendered MediaSession.unregister;;
  when canPlayDeps PodcastPlayer.canPlayCleanup;;
  when urlChanged (ProgressPersistence.loadProgress p);;
  when rendered (MediaSession.register p);;
  when urlChanged (PodcastPlayer.resetEffect p);;
  when canPlayDeps (PodcastPlayer.canPlayEffect p).

Definition runTimer (a : TimerAction) : M unit :=
  match a with
  | ClearSaveTimeout => ProgressPersistence.saveTimeoutElapsed
  | MediaResumePlay => MediaSession.play
  | CanPlayFallback => skip
  end.

Definition dropSuspended (k : nat) : M unit :=
  modify (on_loop (fun l => with_suspended (delete k (suspended l)) l)).

(** A suspended handler goes on once the promise it awaits is settled; the
    promise of [audioEl.play()] settles either way. *)
Definition resume (k : nat) (c : Cont) : M unit :=
  w ← get;
  match c with
  | CanPlay_announced listener progress promise =>
      match SpeechAnnouncement.settled promise w with
      | Some r => dropSuspended k;; PodcastPlayer.handleCanPlay_resume listener progress r
      | None => skip
      end
  | CanPlay_played listener => dropSuspended k;; PodcastPlayer.handleCanPlay_end listener
  | Play_announced progress promise =>
      match SpeechAnnouncement.settled promise w with
      | Some r => dropSuspended k;; PodcastPlayer.handlePlay_resume progress r
      | None => skip
      end
  | Play_played => dropSuspended k
  | Ended_announced promise =>
      match SpeechAnnouncement.settled promise w with
      | Some _ => dropSuspended k
      | None => skip
      end
  end.

(** The handler an event starts.  The audio player raises its events only
    while it is rendered, the media session only while handlers are
    registered, and React drops the state updates of a component that is
    not mounted. *)
Definition dispatch `{Builtins} (e : Event) : M unit :=
  w ← get;
  let p := currentProps w in
  match e with
  | Tick dt => modify (on_env (fun v => with_now (now v + dt)%N v))
  | TimerFire k =>
      match timers (loop w) !! k with
      | Some t =>
          when (timer_due t <=? now (env w))%N
            (modify (on_loop (fun l => with_timers (delete k (timers l)) l));;
             runTimer (timer_action t))
      | None => skip
      end
  | Fetched data => when (rootMounted w) (EpisodeList.fetched data)
  | FetchFailed => when (rootMounted w) EpisodeList.fetchFailed
  | VoicesChanged vs =>
      modify (on_env (with_voices vs));;
      when (hasSpeechSynthesis (env w)) SpeechAnnouncement.loadVoices
  | AudioPlayed => when (audioMounted p) (PodcastPlayer.handlePlay p)
  | AudioCanPlay =>
      match canplayListener (refs w) with
      | Some (listener, q) => when (audioMounted p) (PodcastPlayer.handleCanPlay listener q)
      | None => skip
      end
  | AudioListen t => when (audioMounted p) (ProgressPersistence.handleListen p t)
  | AudioEnded => when (audioMounted p) (PodcastPlayer.handleEnded p)
  | ClickNext => when (audioMounted p) (PodcastPlayer.handleNext p)
  | ClickPrevious => when (audioMounted p) (PodcastPlayer.handlePrevious p)
  | MediaPlay => match mediaHandlers w with Some _ => MediaSession.play | None => skip end
  | MediaPause => match mediaHandlers w with Some _ => MediaSession.pause | None => skip end
  | MediaPreviousTrack =>
      match mediaHandlers w with Some q => MediaSession.previoustrack q | None => skip end
  | MediaNextTrack =>
      match mediaHandlers w with Some q => MediaSession.nexttrack q | None => skip end
  | SpeechEvent uid ev => SpeechAnnouncement.utteranceEvent uid ev
  | Resume k =>
      match suspended (loop w) !! k with
      | Some c => resume k c
      | None => skip
      end
  end.

(** An exception that leaves a handler is reported and the loop goes on. *)
Definition settle (r : World * Result unit) : World :=
  match r with
  | (w, Ok _) => w
  | (w, Throw err) => on_trace (fun t => t ++ [Uncaught err]) w
  end.

(** React unmounts the tree: the cleanups of the effects run and the refs
    to the elements are detached. *)
Definition unmount : M unit :=
  ProgressPersistence.cleanupOnUnmount;;
  MediaSession.unregister;;
  PodcastPlayer.canPlayCleanup;;
  modify (with_rootMounted false).

(** The render a turn caused, with its effects.  An exception that leaves
    an effect is reported, and React, which finds no error boundary,
    unmounts the whole tree. *)
Definition afterRender `{Builtins} (old : ListState) (w : World) : World :=
  if rootMounted w then
    match commit old w with
    | (w', Ok _) => w'
    | (w', Throw err) => exec unmount (on_trace (fun t => t ++ [Uncaught err]) w')
    end
  else w.

(** One turn of the loop: the handler, then the render it caused. *)
Definition step `{Builtins} (e : Event) (w : World) : World :=
  afterRender (list_state w) (settle (dispatch e w)).

Definition run `{Builtins} (evs : list Event) (w : World) : World :=
  fold_left (fun w e => step e w) evs w.

(** The page after the modules are loaded and the components mounted:
    no episode yet, the request is on its way; [stored] is what earlier
    visits left in localStorage. *)
Definition boot (speechSynthesis mediaSession : bool) (vs : list Voice)
    (stored : gmap string string) : World :=
  let w0 :=
    {| env := {| hasSpeechSynthesis := speechSynthesis; hasMediaSession := mediaSession;
                 voices := vs; now := 0 |};
       speech := {| cachedGoogleVoice := None; isAnnouncing := false; utterances := [] |};
       localStorage := stored;
       rootMounted := true;
       list_state := {| episodes := []; currentIndex := Num 0; listLoading := true |};
       refs := {| announcedRef := false; skipJustHappenedRef := false; userPlayedRef := false;
                  saveTimeout := None; canplayListener := None |};
       mediaHandlers := None;
       loop := {| timers := []; nextTimer := 1; nextListener := 0; suspended := [] |};
       trace := [] |} in
  exec (when speechSynthesis SpeechAnnouncement.loadVoices) w0.

(** ** Observations on a trace *)

(** The calls of [announce] made by the two announce-then-play paths. *)
Definition isSlotAnnounce (e : Effect) : bool :=
  match e with
  | Announce UserPlay _ _ _ _ | Announce BufferReady _ _ _ _ => true
  | _ => false
  end.

Definition slotAnnouncements (t : list Effect) : nat := length (List.filter isSlotAnnounce t).

(** The page right after an announcement was started. *)
Definition speaking (text : string) (w : World) : World :=
  let u := SpeechAnnouncement.newUtterance text (cachedGoogleVoice (speech w)) in
  on_trace (fun t => (t ++ [SynthCancel]) ++ [SynthSpeak u])
    (on_speech (fun s => with_utterances (utterances s ++ [(u, None)])
                           (with_isAnnouncing true s)) w).

(** The offset [getSavedProgress] returns on a page. *)
Definition savedProgress `{Builtins} (p : Props) (w : World) : float :=
  match ProgressPersistence.getSavedProgress p w with
  | (_, Ok t) => t
  | (_, Throw _) => 0%float
  end.

(** The run stays with one episode: no turn changes the [audioUrl] the
    player is rendered with, so that the reset effect never runs. *)
Fixpoint sameEpisode `{Builtins} (evs : list Event) (w : World) : bool :=
  match evs with
  | [] => true
  | e :: evs =>
      bool_decide (audioUrl (currentProps (step e w)) = audioUrl (currentProps w))
      && sameEpisode evs (step e w)
  end.

(** What is left of the announcement slot of the episode. *)
Definition budget (w : World) : nat := if announcedRef (refs w) then 0 else 1.

(** The pending timers that will clear [saveTimeout]. *)
Definition isClearSave (t : Timer) : bool :=
  match timer_action t with ClearSaveTimeout => true | _ => false end.

Definition clearTimers (ts : list Timer) : nat := length (List.filter isClearSave ts).

(** A timer that clears [saveTimeout] is not due before [D]. *)
Definition quiet (D : N) (t : Timer) : Prop :=
  timer_action t = ClearSaveTimeout -> (D <= timer_due t)%N.

(** The throttle of the progress store is closed until [D]. *)
Definition throttled (D : N) (w : World) : Prop :=
  is_Some (saveTimeout (refs w)) /\ Forall (quiet D) (timers (loop w)).

(** At most one timer is there to reopen the throttle, and none while it
    is open. *)
Definition armed (w : World) : Prop :=
  clearTimers (timers (loop w)) <= (if saveTimeout (refs w) is Some _ then 1 else 0).

(** While there is no episode the index is the initial one and the media
    session has no handler. *)
Definition inert (w : World) : Prop :=
  episodes (list_state w) = [] ->
  currentIndex (list_state w) = Num 0 /\ mediaHandlers w = None.

(** No event of the schedule is the natural end of a track. *)
Definition noneEnded (evs : list Event) : bool :=
  forallb (fun e => match e with AudioEnded => false | _ => true end) evs.

(** ** Further observations *)

(** The index points into the list. *)
Definition inRange (l : ListState) : bool :=
  match currentIndex l with
  | Num i => (0 <=? i)%Z && (i <? Z.of_nat (length (episodes l)))%Z
  | NaN => false
  end.

(** The state of EpisodeList after one call of a callback. *)
Definition advance (l : ListState) : ListState :=
  with_currentIndex (EpisodeList.handleNext (episodes l) (currentIndex l)) l.

Definition retreat (l : ListState) : ListState :=
  with_currentIndex (EpisodeList.handlePrevious (episodes l) (currentIndex l)) l.

(** The index is valid whenever there is an episode, next to what holds
    while there is none. *)
Definition sound (w : World) : Prop :=
  inert w /\ (episodes (list_state w) <> [] -> inRange (list_state w) = true).

(** The canplay listener, if one is attached, closes over the episode
    that is rendered now. *)
Definition listenerCurrent (w : World) : Prop :=
  forall l q, canplayListener (refs w) = Some (l, q) ->
    audioUrl q = audioUrl (currentProps w)
    /\ source q = source (currentProps w)
    /\ pubDate q = pubDate (currentProps w).

(** The action handlers of the media session that the current render
    calls for. *)
Definition expectedMediaHandlers (w : World) : option Props :=
  let p := currentProps w in
  if hasMediaSession (env w) && truthy (audioUrl p) && truthy (source p)
  then Some p else None.

(** The voice the engine prefers. *)
Definition isPreferredVoice (v : Voice) : bool :=
  String.eqb (voice_name v) "Google UK English Female".

(** An utterance speaks with the preferred voice and its language, or
    with the defaults of the platform. *)
Definition voiceOk (u : Utterance) : Prop :=
  match utt_voice u with
  | Some v => isPreferredVoice v = true /\ utt_lang u = Some (voice_lang v)
  | None => utt_lang u = None
  end.

(** The engine caches the preferred voice or none, and so did every
    utterance it spoke. *)
Definition voicesOk (w : World) : Prop :=
  (forall v, cachedGoogleVoice (speech w) = Some v -> isPreferredVoice v = true)
  /\ Forall (fun up => voiceOk (fst up)) (utterances (speech w)).

(** The utterances handed to the synthesizer. *)
Definition isSpeak (e : Effect) : bool :=
  match e with SynthSpeak _ => true | _ => false end.

Definition spoken (t : list Effect) : nat := length (List.filter isSpeak t).

(** A platform to run examples on: whole seconds up to a minute are
    printed in decimal, every date is a Tuesday at nine. *)
Definition sampleSeconds : list (float * string) :=
  [(0, "0"); (1, "1"); (2, "2"); (3, "3"); (42, "42"); (60, "60")]%float.

#[global] Instance samplePlatform : Builtins := {|
  number_toString f :=
    nullish (snd <$> find (fun e => PrimFloat.eqb (fst e) f) sampleSeconds) "NaN";
  Number_of s :=
    nullish (fst <$> find (fun e => String.eqb (snd e) s) sampleSeconds) nan;
  weekday_long _ := "Tuesday";
  time_12h _ := "9:00 AM"
|}.

Definition sampleEpisode (name : string) (date : option string) : Episode :=
  {| ep_id := name; ep_source := name; ep_audioUrl := "https://cdn.example/" +:+ name +:+ ".mp3";
     ep_image := None; ep_pubDate := date |}.

(** Three episodes answered by the back end to a browser with speech
    synthesis and a media session. *)
Definition sampleList : list Episode :=
  [sampleEpisode "A" None; sampleEpisode "B" (Some "2025-01-07T09:00:00Z");
   sampleEpisode "C" None].

Definition samplePage : World := run [Fetched sampleList] (boot true true [] ∅).

(** * Properties *)

(** ** The episode sequencer *)

Section Sequencer.

Import EpisodeList.

Variable eps : list Episode.
Let n : Z := Z.of_nat (length eps).

Lemma handleNext_in_range (i : Z) :
  (0 < n)%Z -> (0 <= i < n)%Z -> handleNext eps (Num i) = Num ((i + 1) mod n).
Proof.
  intros Hn Hi. unfold handleNext, js_rem, js_succ, js_length. fold n.
  destruct (Z.eqb_spec n 0) as [E|_]; [lia|].
  f_equal. apply Z.rem_mod_nonneg; lia.
Qed.

Lemma handleNext_iter (k : nat) (i : Z) :
  (0 < n)%Z -> (0 <= i < n)%Z ->
  Nat.iter k (handleNext eps) (Num i) = Num ((i + Z.of_nat k) mod n).
Proof.
  intros Hn Hi. induction k as [|k IH].
  - simpl. rewrite Z.add_0_r, Z.mod_small by lia. reflexivity.
  - simpl Nat.iter. rewrite IH.
    rewrite handleNext_in_range by (try apply Z.mod_pos_bound; lia).
    f_equal. rewrite Zplus_mod_idemp_l. f_equal. lia.
Qed.

Lemma handlePrevious_in_range (i : Z) :
  handlePrevious eps (Num i) = Num (if (i =? 0)%Z then n - 1 else i - 1).
Proof. unfold handlePrevious, js_is_zero. destruct (i =? 0)%Z; reflexivity. Qed.

End Sequencer.

(** C5: on a non-empty list of length n and an index i in [0, n),
    [handleNext] maps i to (i+1) mod n, n applications of it return to i,
    [handlePrevious] at 0 yields n-1 and maps i > 0 to i-1. *)
Theorem sequencer_wraps (eps : list Episode) (i : Z) :
  eps <> [] ->
  (0 <= i < Z.of_nat (length eps))%Z ->
  EpisodeList.handleNext eps (Num i) = Num ((i + 1) mod Z.of_nat (length eps))
  /\ Nat.iter (length eps) (EpisodeList.handleNext eps) (Num i) = Num i
  /\ EpisodeList.handlePrevious eps (Num 0) = Num (Z.of_nat (length eps) - 1)
  /\ ((0 < i)%Z -> EpisodeList.handlePrevious eps (Num i) = Num (i - 1)).
Proof.
  intros Hne Hi.
  assert (Hn : (0 < Z.of_nat (length eps))%Z) by lia.
  split; [|split; [|split]].
  - apply handleNext_in_range; assumption.
  - rewrite handleNext_iter by assumption.
    f_equal. rewrite <- (Z.mul_1_l (Z.of_nat (length eps))) at 1.
    rewrite Z.mod_add by lia. apply Z.mod_small; lia.
  - rewrite handlePrevious_in_range. reflexivity.
  - intros Hpos. rewrite handlePrevious_in_range.
    destruct (Z.eqb_spec i 0); [lia | reflexivity].
Qed.

Lemma sequencer_wraps_witness :
  EpisodeList.handleNext sampleList (Num 2) = Num 0
  /\ Nat.iter 3 (EpisodeList.handleNext sampleList) (Num 2) = Num 2
  /\ EpisodeList.handlePrevious sampleList (Num 0) = Num 2
  /\ ((0 < 2)%Z -> EpisodeList.handlePrevious sampleList (Num 2) = Num 1).
Proof.
  apply (sequencer_wraps sampleList 2); [discriminate | simpl; lia].
Defined.

(** ** The announcement engine *)

Section Engine.

Import SpeechAnnouncement.
Context `{Builtins}.

Lemma announce_unfold name isContinuing pubDate skipPrefix w :
  announce name isContinuing pubDate skipPrefix w =
    if isAnnouncing (speech w) || negb (hasSpeechSynthesis (env w))
    then (w, Ok (Settled ended))
    else (speaking (announcementText name isContinuing pubDate skipPrefix) w,
          Ok (OnUtterance (length (utterances (speech w))))).
Proof.
  unfold announce, announcePodcastNameAndWait, mbind, M_bind, get; simpl.
  destruct (isAnnouncing (speech w) || negb (hasSpeechSynthesis (env w))); reflexivity.
Qed.

Lemma cancelAnnouncement_unfold w :
  cancelAnnouncement w =
    if hasSpeechSynthesis (env w)
    then (on_speech (with_isAnnouncing false) (on_trace (fun t => t ++ [SynthCancel]) w), Ok tt)
    else (w, Throw "ReferenceError: speechSynthesis is not defined").
Proof.
  unfold cancelAnnouncement, mbind, M_bind, get; simpl.
  destruct (hasSpeechSynthesis (env w)); reflexivity.
Qed.

Lemma utteranceEvent_pending uid e u w :
  utterances (speech w) !! uid = Some (u, None) ->
  settled (OnUtterance uid) (exec (utteranceEvent uid e) w) = Some (resultOf e)
  /\ isAnnouncing (speech (exec (utteranceEvent uid e) w)) = false.
Proof.
  intros Hu. unfold utteranceEvent, exec, mbind, M_bind, get; simpl.
  assert (Hlt : (uid <? length (utterances (speech w)))%nat = true).
  { apply Nat.ltb_lt. eapply lookup_lt_Some; eassumption. }
  rewrite Hlt; simpl. split; [|reflexivity].
  rewrite list_lookup_alter, Hu, decide_True by reflexivity. reflexivity.
Qed.

(** An empty date string counts as no date. *)
Lemma announcementText_empty_date name isContinuing :
  announcementText name isContinuing (Some "") false = "From " +:+ name +:+ ".".
Proof. reflexivity. Qed.

End Engine.

(** C3: a call of [announce] while the engine is busy, or in a browser
    without speech synthesis, leaves the page as it is (no utterance is
    created, nothing is queued) and returns a promise already resolved
    with ['ended']; an [error] event on a spoken utterance resolves its
    pending promise with ['ended'] too. *)
Theorem announce_never_queues `{Builtins} (w : World) (name : string)
    (isContinuing : bool) (pubDate : option string) (skipPrefix : bool) :
  (isAnnouncing (speech w) = true \/ hasSpeechSynthesis (env w) = false ->
   SpeechAnnouncement.announce name isContinuing pubDate skipPrefix w
     = (w, Ok (Settled ended)))
  /\ (forall uid u,
        utterances (speech w) !! uid = Some (u, None) ->
        SpeechAnnouncement.settled (OnUtterance uid)
          (exec (SpeechAnnouncement.utteranceEvent uid UttError) w) = Some ended).
Proof.
  split.
  - intros Hbusy. rewrite announce_unfold.
    destruct Hbusy as [-> | ->]; [reflexivity | rewrite orb_true_r; reflexivity].
  - intros uid u Hu. apply (utteranceEvent_pending uid UttError u w Hu).
Qed.

Lemma announce_never_queues_witness :
  let busy := run [AudioPlayed] samplePage in
  let mute := run [Fetched sampleList] (boot false true [] ∅) in
  isAnnouncing (speech busy) = true
  /\ SpeechAnnouncement.announce "B" false None false busy = (busy, Ok (Settled ended))
  /\ hasSpeechSynthesis (env mute) = false
  /\ SpeechAnnouncement.announce "B" false None false mute = (mute, Ok (Settled ended))
  /\ SpeechAnnouncement.settled (OnUtterance 0)
       (exec (SpeechAnnouncement.utteranceEvent 0 UttError) busy) = Some ended.
Proof.
  intros busy mute.
  split; [reflexivity|]. split.
  { apply (announce_never_queues busy "B" false None false). left. reflexivity. }
  split; [reflexivity|]. split.
  { apply (announce_never_queues mute "B" false None false). right. reflexivity. }
  eapply (proj2 (announce_never_queues busy "B" false None false) 0).
  reflexivity.
Defined.

(** ** Reasoning about handlers *)

(** Handlers are unfolded down to the state they compute, and every test
    they make is split. *)
Ltac unfold_handlers :=
  unfold savedProgress in *;
  unfold step, afterRender, unmount, commit, dispatch, settle, exec, resume, runTimer,
    dropSuspended,
    PodcastPlayer.handlePlay, PodcastPlayer.handlePlay_resume,
    PodcastPlayer.handleCanPlay, PodcastPlayer.handleCanPlay_resume,
    PodcastPlayer.handleCanPlay_end, PodcastPlayer.canPlayEffect,
    PodcastPlayer.canPlayCleanup, PodcastPlayer.resetEffect,
    PodcastPlayer.handleEnded, PodcastPlayer.handleNext, PodcastPlayer.handlePrevious,
    PodcastPlayer.removeCanPlayListener,
    ProgressPersistence.handleListen, ProgressPersistence.getSavedProgress,
    ProgressPersistence.clearProgress, ProgressPersistence.saveTimeoutElapsed,
    ProgressPersistence.loadProgress, ProgressPersistence.cleanupOnUnmount,
    MediaSession.play, MediaSession.pause, MediaSession.previoustrack,
    MediaSession.nexttrack, MediaSession.register, MediaSession.unregister,
    SpeechAnnouncement.announce, SpeechAnnouncement.announcePodcastNameAndWait,
    SpeechAnnouncement.speak, SpeechAnnouncement.cancelAnnouncement,
    SpeechAnnouncement.utteranceEvent, SpeechAnnouncement.handleEndOrAbort,
    SpeechAnnouncement.hasAnnounced, SpeechAnnouncement.setAnnouncedFlag,
    SpeechAnnouncement.resetAnnouncedFlag, SpeechAnnouncement.loadVoices,
    EpisodeList.invoke, EpisodeList.fetched, EpisodeList.fetchFailed in *;
  unfold setCurrentTime, clearTimeout in *;
  unfold suspend, emit, when, skip, setTimeout, audioRefCurrent, currentProps in *;
  unfold mbind, M_bind, mret, M_ret, get, modify, throw in *.

Arguments slotAnnouncements : simpl never.
Arguments clearTimers : simpl never.

Ltac innermost x :=
  lazymatch x with
  | context [match _ with _ => _ end] => fail
  | _ => idtac
  end.

Ltac reduce_state :=
  cbn -[Pos.succ N.add N.leb truthy EpisodeList.render audioMounted
        PrimFloat.is_finite cancelTimer] in *.

Ltac split_cases :=
  repeat (reduce_state;
    match goal with
    | |- context [match ?x with _ => _ end] => innermost x; destruct x eqn:?
    end);
  reduce_state.

Ltac decide_hyps :=
  repeat match goal with
  | Hd : bool_decide _ = true |- _ => apply bool_decide_eq_true in Hd
  | Hd : bool_decide _ = false |- _ => apply bool_decide_eq_false in Hd
  | Hd : (_ <? _)%nat = true |- _ => apply Nat.ltb_lt in Hd
  | Hd : (_ <? _)%nat = false |- _ => apply Nat.ltb_ge in Hd
  | Hd : (_ <=? _)%N = true |- _ => apply N.leb_le in Hd
  | Hd : (_ <=? _)%N = false |- _ => apply N.leb_gt in Hd
  end.

Lemma slotAnnouncements_snoc (t : list Effect) (e : Effect) :
  slotAnnouncements (t ++ [e]) = slotAnnouncements t + (if isSlotAnnounce e then 1 else 0).
Proof.
  unfold slotAnnouncements. rewrite List.filter_app, length_app. simpl.
  destruct (isSlotAnnounce e); reflexivity.
Qed.

Ltac count_slots := rewrite ?slotAnnouncements_snoc; simpl; try lia.

Ltac split_orbs :=
  repeat match goal with
  | Hd : _ || _ = false |- _ => apply orb_false_iff in Hd as [? ?]
  | Hd : _ || _ = true |- _ => apply orb_true_iff in Hd as [Hd|Hd]
  | Hd : _ && _ = true |- _ => apply andb_true_iff in Hd as [? ?]
  | Hd : _ && _ = false |- _ => apply andb_false_iff in Hd as [Hd|Hd]
  end.

Ltac negb_hyps :=
  repeat match goal with
  | Hn : negb _ = true |- _ => apply negb_true_iff in Hn
  | Hn : negb _ = false |- _ => apply negb_false_iff in Hn
  end.

Lemma Forall_cancelTimer (P : Timer -> Prop) handle ts :
  Forall P ts -> Forall P (cancelTimer handle ts).
Proof.
  unfold cancelTimer. induction 1 as [|t ts Ht _ IH]; simpl; [constructor|].
  destruct (negb _); [constructor|]; assumption.
Qed.

Section Frames.

Context `{Builtins}.

(** No handler mounts or unmounts the tree. *)
Lemma dispatch_rootMounted e w : rootMounted (settle (dispatch e w)) = rootMounted w.
Proof. destruct e; unfold_handlers; split_cases; congruence. Qed.

(** A turn that leaves the state of EpisodeList alone causes no render. *)
Lemma afterRender_idle w : afterRender (list_state w) w = w.
Proof.
  unfold afterRender, commit, mbind, M_bind, get. unfold currentProps.
  destruct (rootMounted w); [|reflexivity].
  rewrite !bool_decide_eq_false_2 by (intros Hne; apply Hne; reflexivity).
  reflexivity.
Qed.

Lemma step_idle e w :
  list_state (settle (dispatch e w)) = list_state w -> step e w = settle (dispatch e w).
Proof. intros Hl. unfold step. rewrite <- Hl. apply afterRender_idle. Qed.

(** What the effects after a render leave alone. *)
Lemma afterRender_frame old w :
  let w' := afterRender old w in
  list_state w' = list_state w /\ localStorage w' = localStorage w
  /\ speech w' = speech w /\ env w' = env w
  /\ saveTimeout (refs w') = saveTimeout (refs w)
  /\ suspended (loop w') = suspended (loop w)
  /\ slotAnnouncements (trace w') = slotAnnouncements (trace w)
  /\ (audioUrl (currentProps w') = audioUrl (EpisodeList.render old) ->
      announcedRef (refs w') = announcedRef (refs w))
  /\ (forall D, Forall (quiet D) (timers (loop w)) -> Forall (quiet D) (timers (loop w'))).
Proof.
  unfold_handlers. split_cases.
  all: repeat split; intros; decide_hyps; try reflexivity; try congruence; count_slots.
  all: rewrite ?Forall_app, ?Forall_singleton; repeat split;
       try apply Forall_cancelTimer; try assumption; discriminate.
Qed.

Lemma step_list_state e w : list_state (step e w) = list_state (settle (dispatch e w)).
Proof. unfold step. apply afterRender_frame. Qed.

(** A handler takes the announcement slot exactly when it calls
    [announce] from one of the two announce-then-play paths, and no
    handler gives the slot back. *)
Lemma dispatch_budget e w :
  let w' := settle (dispatch e w) in
  slotAnnouncements (trace w') + budget w' = slotAnnouncements (trace w) + budget w.
Proof.
  destruct e; unfold_handlers; unfold budget.
  all: split_cases.
  all: count_slots.
Qed.

Lemma step_budget e w :
  audioUrl (currentProps (step e w)) = audioUrl (currentProps w) ->
  slotAnnouncements (trace (step e w)) + budget (step e w)
    = slotAnnouncements (trace w) + budget w.
Proof.
  intros Hurl. rewrite <- (dispatch_budget e w).
  unfold step, budget in *.
  destruct (afterRender_frame (list_state w) (settle (dispatch e w)))
    as (_ & _ & _ & _ & _ & _ & Hslot & Hann & _).
  cbv zeta in Hslot, Hann. rewrite Hslot.
  destruct (rootMounted w) eqn:Hroot.
  - unfold currentProps in Hurl at 2. rewrite Hroot in Hurl.
    rewrite (Hann Hurl). reflexivity.
  - unfold afterRender. rewrite dispatch_rootMounted, Hroot. reflexivity.
Qed.

Lemma run_budget evs w :
  sameEpisode evs w = true ->
  slotAnnouncements (trace (run evs w)) + budget (run evs w)
    = slotAnnouncements (trace w) + budget w.
Proof.
  revert w. induction evs as [|e evs IH]; intros w Hsame; [reflexivity|].
  simpl in Hsame. apply andb_true_iff in Hsame as [Hurl Hrest].
  apply bool_decide_eq_true in Hurl.
  change (run (e :: evs) w) with (run evs (step e w)).
  rewrite (IH _ Hrest). apply step_budget, Hurl.
Qed.

End Frames.

(** ** The announcement slot *)

Section Slot.

Context `{Builtins}.

(** A handler that finds the slot taken makes no call at all and leaves
    nothing suspended. *)
Lemma handlePlay_late p w :
  announcedRef (refs w) = true ->
  trace (exec (PodcastPlayer.handlePlay p) w) = trace w
  /\ suspended (loop (exec (PodcastPlayer.handlePlay p) w)) = suspended (loop w).
Proof.
  intros Ha. unfold_handlers. rewrite ?Ha. split_cases.
  all: rewrite ?Ha in *; try discriminate; split; reflexivity.
Qed.

Lemma handleCanPlay_late listener p w :
  announcedRef (refs w) = true ->
  trace (exec (PodcastPlayer.handleCanPlay listener p) w) = trace w
  /\ suspended (loop (exec (PodcastPlayer.handleCanPlay listener p) w)) = suspended (loop w).
Proof.
  intros Ha. unfold_handlers. rewrite ?Ha. split_cases.
  all: split; reflexivity.
Qed.

(** A handler that finds the slot free takes it in the same turn, pauses,
    and calls [announce] with [savedOffset > 2] as [isContinuing]; its
    tail waits with that offset. *)
Lemma handlePlay_first p w :
  audioMounted (currentProps w) = true ->
  truthy (source p) = true -> truthy (audioUrl p) = true ->
  announcedRef (refs w) = false ->
  let w' := exec (PodcastPlayer.handlePlay p) w in
  announcedRef (refs w') = true
  /\ (exists rest,
        trace w' = trace w ++ AudioPause
          :: Announce UserPlay (nullish (source p) "") (2 <? savedProgress p w)%float
               (pubDate p) false :: rest)
  /\ (exists promise,
        suspended (loop w') = suspended (loop w) ++ [Play_announced (savedProgress p w) promise]).
Proof.
  intros Hm Hs Hu Ha. unfold_handlers. rewrite Hm, Hs, Hu. reduce_state.
  rewrite Ha. split_cases.
  all: repeat split; try reflexivity; rewrite <- ?app_assoc; simpl; eauto.
Qed.

Lemma handleCanPlay_first listener p w :
  announcedRef (refs w) = false ->
  let w' := exec (PodcastPlayer.handleCanPlay listener p) w in
  announcedRef (refs w') = true
  /\ (exists rest,
        trace w' = trace w ++ AudioPause
          :: Announce BufferReady (nullish (source p) "") (2 <? savedProgress p w)%float
               (pubDate p) false :: rest)
  /\ (exists promise,
        suspended (loop w') = suspended (loop w)
          ++ [CanPlay_announced listener (savedProgress p w) promise]).
Proof.
  intros Ha. unfold_handlers. rewrite Ha. split_cases.
  all: repeat split; try reflexivity; rewrite <- ?app_assoc; simpl; eauto.
Qed.

End Slot.

(** ** The announce-then-play sequences *)

Section Sequences.

Context `{Builtins}.
Import SpeechAnnouncement.

(** The first turn of a handler that takes the slot, call by call: the
    pause, then [announce] with the [source] of the episode, with
    [savedOffset > 2] as [isContinuing] and with its [pubDate].  A free
    engine speaks the sentence for these and the tail waits for that
    utterance; a busy or missing one says nothing and the tail waits for
    a promise that is resolved already. *)
Lemma handlePlay_turn p w :
  audioMounted (currentProps w) = true ->
  truthy (source p) = true -> truthy (audioUrl p) = true ->
  announcedRef (refs w) = false ->
  let g := savedProgress p w in
  let busy := isAnnouncing (speech w) || negb (hasSpeechSynthesis (env w)) in
  let u := newUtterance
             (announcementText (nullish (source p) "") (2 <? g)%float (pubDate p) false)
             (cachedGoogleVoice (speech w)) in
  let w' := exec (PodcastPlayer.handlePlay p) w in
  snd (PodcastPlayer.handlePlay p w) = Ok tt
  /\ list_state w' = list_state w
  /\ trace w' = trace w ++ AudioPause
       :: Announce UserPlay (nullish (source p) "") (2 <? g)%float (pubDate p) false
       :: (if busy then [] else [SynthCancel; SynthSpeak u])
  /\ utterances (speech w') = utterances (speech w) ++ (if busy then [] else [(u, None)])
  /\ suspended (loop w') = suspended (loop w)
       ++ [Play_announced g (if busy then Settled ended
                             else OnUtterance (length (utterances (speech w))))].
Proof.
  intros Hm Hs Hu Ha. unfold_handlers. rewrite Hm, Hs, Hu. reduce_state.
  rewrite Ha. split_cases.
  all: rewrite <- ?app_assoc, ?app_nil_r; simpl; repeat split; reflexivity.
Qed.

Lemma handleCanPlay_turn listener p w :
  announcedRef (refs w) = false ->
  let g := savedProgress p w in
  let busy := isAnnouncing (speech w) || negb (hasSpeechSynthesis (env w)) in
  let u := newUtterance
             (announcementText (nullish (source p) "") (2 <? g)%float (pubDate p) false)
             (cachedGoogleVoice (speech w)) in
  let w' := exec (PodcastPlayer.handleCanPlay listener p) w in
  snd (PodcastPlayer.handleCanPlay listener p w) = Ok tt
  /\ list_state w' = list_state w
  /\ trace w' = trace w ++ AudioPause
       :: Announce BufferReady (nullish (source p) "") (2 <? g)%float (pubDate p) false
       :: (if busy then [] else [SynthCancel; SynthSpeak u])
  /\ utterances (speech w') = utterances (speech w) ++ (if busy then [] else [(u, None)])
  /\ suspended (loop w') = suspended (loop w)
       ++ [CanPlay_announced listener g (if busy then Settled ended
                                         else OnUtterance (length (utterances (speech w))))].
Proof.
  intros Ha. unfold_handlers. rewrite Ha. split_cases.
  all: rewrite <- ?app_assoc, ?app_nil_r; simpl; repeat split; reflexivity.
Qed.

(** Only the answer of the fetch, the skips and the end of a track write
    to the state of EpisodeList. *)
Lemma dispatch_list_state e w :
  match e with
  | Fetched _ | FetchFailed | AudioEnded | ClickNext | ClickPrevious
  | MediaNextTrack | MediaPreviousTrack => True
  | _ => list_state (settle (dispatch e w)) = list_state w
  end.
Proof. destruct e; try exact I; unfold_handlers; split_cases; reflexivity. Qed.

(** The turn of a play event is the first turn of [handlePlay]. *)
Lemma step_AudioPlayed w :
  audioMounted (currentProps w) = true ->
  step AudioPlayed w = exec (PodcastPlayer.handlePlay (currentProps w)) w.
Proof.
  intros Hm. rewrite step_idle by apply (dispatch_list_state AudioPlayed).
  unfold dispatch, mbind, M_bind, get, when. rewrite Hm.
  unfold settle, exec.
  destruct (PodcastPlayer.handlePlay (currentProps w) w) as [w' [[]|err]] eqn:Hh;
    [reflexivity|].
  exfalso. revert Hh. clear. unfold_handlers. split_cases; discriminate.
Qed.

(** The turn of a [canplay] event is the first turn of the listener that
    is attached. *)
Lemma step_AudioCanPlay listener q w :
  canplayListener (refs w) = Some (listener, q) ->
  audioMounted (currentProps w) = true ->
  step AudioCanPlay w = exec (PodcastPlayer.handleCanPlay listener q) w.
Proof.
  intros Hl Hm. rewrite step_idle by apply (dispatch_list_state AudioCanPlay).
  unfold dispatch, mbind, M_bind, get, when. rewrite Hl, Hm.
  unfold settle, exec.
  destruct (PodcastPlayer.handleCanPlay listener q w) as [w' [[]|err]] eqn:Hh; [reflexivity|].
  exfalso. revert Hh. clear. unfold_handlers. split_cases; discriminate.
Qed.

(** An event of a spoken utterance settles its pending promise and makes
    no call; the suspended handlers stay where they are. *)
Lemma step_SpeechEvent uid e u w :
  utterances (speech w) !! uid = Some (u, None) ->
  let w' := step (SpeechEvent uid e) w in
  settled (OnUtterance uid) w' = Some (resultOf e)
  /\ trace w' = trace w
  /\ suspended (loop w') = suspended (loop w).
Proof.
  intros Hu w'. subst w'. rewrite step_idle by apply (dispatch_list_state (SpeechEvent uid e)).
  assert (Hlt : (uid <? length (utterances (speech w)))%nat = true).
  { apply Nat.ltb_lt. eapply lookup_lt_Some; eassumption. }
  unfold_handlers. rewrite Hlt. reduce_state.
  rewrite list_lookup_alter, Hu, decide_True by reflexivity. repeat split; reflexivity.
Qed.

(** A tail whose promise is pending stays suspended: nothing happens. *)
Lemma step_Resume_pending k c listener progress promise w :
  suspended (loop w) !! k = Some c ->
  c = Play_announced progress promise \/ c = CanPlay_announced listener progress promise ->
  settled promise w = None ->
  step (Resume k) w = w.
Proof.
  intros Hk Hc Hp. rewrite step_idle by apply (dispatch_list_state (Resume k)).
  unfold dispatch, resume, mbind, M_bind, get. rewrite Hk.
  destruct Hc as [-> | ->]; rewrite Hp; reflexivity.
Qed.

(** Once the promise is settled the tail assigns the offset to
    [currentTime], if it is greater than 0, and then looks at the result.
    An offset that is not finite makes the assignment a TypeError, which
    ends the tail. *)
Lemma step_Resume_settled k c listener progress promise r w :
  suspended (loop w) !! k = Some c ->
  c = Play_announced progress promise \/ c = CanPlay_announced listener progress promise ->
  settled promise w = Some r ->
  (0 <? progress)%float = true ->
  trace (step (Resume k) w)
    = trace w ++
        (if PrimFloat.is_finite progress
         then AudioSeek progress :: match r with ended => [AudioPlay] | interrupted => [] end
         else [Uncaught "TypeError: the provided double value is non-finite"]).
Proof.
  intros Hk Hc Hp Hpos. rewrite step_idle by apply (dispatch_list_state (Resume k)).
  unfold_handlers. rewrite Hk.
  destruct Hc as [-> | ->]; rewrite Hp, Hpos; destruct (PrimFloat.is_finite progress), r;
    reduce_state; split_cases; rewrite <- ?app_assoc; reflexivity.
Qed.

(** From the first turn to the resumed tail, for a handler that found the
    engine free: the tail waits for the utterance the handler spoke, an
    event of that utterance resolves the promise, and the resumed tail
    seeks before it plays or stays paused. *)
Lemma sequence_from_first_turn c listener g (u : Utterance) e w w1 :
  c = Play_announced g (OnUtterance (length (utterances (speech w))))
    \/ c = CanPlay_announced listener g (OnUtterance (length (utterances (speech w)))) ->
  utterances (speech w1) = utterances (speech w) ++ [(u, None)] ->
  suspended (loop w1) = suspended (loop w) ++ [c] ->
  (0 <? g)%float = true -> PrimFloat.is_finite g = true ->
  let uid := length (utterances (speech w)) in
  let k := length (suspended (loop w)) in
  step (Resume k) w1 = w1
  /\ trace (run [SpeechEvent uid e; Resume k] w1)
     = trace w1 ++ AudioSeek g
         :: match resultOf e with ended => [AudioPlay] | interrupted => [] end.
Proof.
  intros Hc Hutt Hsus Hpos Hfin uid k.
  assert (Hk : suspended (loop w1) !! k = Some c).
  { rewrite Hsus. apply list_lookup_middle. reflexivity. }
  assert (Hu : utterances (speech w1) !! uid = Some (u, None)).
  { rewrite Hutt. apply list_lookup_middle. reflexivity. }
  split.
  - apply (step_Resume_pending k c listener g (OnUtterance uid)); [exact Hk | exact Hc |].
    unfold settled. rewrite Hu. reflexivity.
  - destruct (step_SpeechEvent uid e u w1 Hu) as (Hset & Htrace & Hkeep).
    change (run [SpeechEvent uid e; Resume k] w1)
      with (step (Resume k) (step (SpeechEvent uid e) w1)).
    rewrite (step_Resume_settled k c listener g (OnUtterance uid) (resultOf e));
      [rewrite Hfin, Htrace; reflexivity | rewrite Hkeep; exact Hk | exact Hc
      | exact Hset | exact Hpos].
Qed.

End Sequences.

(** C1: while one episode stays active, the user-play and the canplay
    handlers together call [announce] at most once, whatever the order in
    which the events, the suspended handlers and the timers run, and not
    at all when the episode was announced before.  A handler that finds
    [announced] set makes no call (no announce, pause, seek or play) and
    suspends nothing; a handler that finds it clear sets it within its
    first turn, where the only calls are the pause and the announcement. *)
Theorem one_announcement_per_activation `{Builtins} (evs : list Event) (w : World)
    (p : Props) (listener : nat) :
  sameEpisode evs w = true ->
  slotAnnouncements (trace (run evs w))
    <= slotAnnouncements (trace w) + (if announcedRef (refs w) then 0 else 1)
  /\ (announcedRef (refs w) = true ->
        trace (exec (PodcastPlayer.handlePlay p) w) = trace w
        /\ suspended (loop (exec (PodcastPlayer.handlePlay p) w)) = suspended (loop w)
        /\ trace (exec (PodcastPlayer.handleCanPlay listener p) w) = trace w
        /\ suspended (loop (exec (PodcastPlayer.handleCanPlay listener p) w))
             = suspended (loop w))
  /\ (announcedRef (refs w) = false ->
        announcedRef (refs (exec (PodcastPlayer.handleCanPlay listener p) w)) = true
        /\ (exists rest,
              trace (exec (PodcastPlayer.handleCanPlay listener p) w)
                = trace w ++ AudioPause
                    :: Announce BufferReady (nullish (source p) "")
                         (2 <? savedProgress p w)%float (pubDate p) false :: rest)
        /\ (audioMounted (currentProps w) = true ->
            truthy (source p) = true -> truthy (audioUrl p) = true ->
            announcedRef (refs (exec (PodcastPlayer.handlePlay p) w)) = true
            /\ exists rest,
                 trace (exec (PodcastPlayer.handlePlay p) w)
                   = trace w ++ AudioPause
                       :: Announce UserPlay (nullish (source p) "")
                            (2 <? savedProgress p w)%float (pubDate p) false :: rest)).
Proof.
  intros Hsame. split; [|split].
  - pose proof (run_budget evs w Hsame) as Hb. unfold budget in Hb.
    destruct (announcedRef (refs (run evs w))), (announcedRef (refs w)); lia.
  - intros Ha.
    destruct (handlePlay_late p w Ha) as [Ht Hs].
    destruct (handleCanPlay_late listener p w Ha) as [Ht' Hs'].
    repeat split; assumption.
  - intros Ha.
    destruct (handleCanPlay_first listener p w Ha) as (Hset & Htrace & _).
    split; [exact Hset|]. split; [exact Htrace|].
    intros Hm Hs Hu.
    destruct (handlePlay_first p w Hm Hs Hu Ha) as (Hset' & Htrace' & _).
    split; assumption.
Qed.

Lemma one_announcement_per_activation_witness :
  let w := run [Fetched sampleList; ClickNext] (boot true true [] ∅) in
  let evs := [AudioPlayed; AudioCanPlay; SpeechEvent 0 UttEnd; AudioCanPlay;
              Resume 0; AudioPlayed; Resume 0; AudioCanPlay] in
  slotAnnouncements (trace (run evs w)) <= slotAnnouncements (trace w) + 1.
Proof.
  intros w evs.
  apply (one_announcement_per_activation evs w (currentProps w) 0).
  vm_compute. reflexivity.
Defined.

(** C4: the sentence [announce] speaks is [name] itself when [skipPrefix]
    is set; otherwise, with a publication date,
    "Continuing {name}, from {weekday} at {time}." when continuing and
    "From {name}, on {weekday} at {time}." when not, weekday and time taken
    from that date; otherwise, without a date or with the empty string as
    date, "From {name}.".  A free engine speaks exactly that sentence.
    Both announce-then-play handlers call [announce] with
    [savedOffset > 2] as [isContinuing]: the one utterance their first turn
    creates carries the sentence for the [source] of the episode, that
    test on the saved offset and the [pubDate] of the episode, and when the
    engine is busy or missing they create none. *)
Theorem announcement_text_rules `{Builtins} (name : string) (isContinuing : bool)
    (published : option string) (skipPrefix : bool) (p : Props) (listener : nat) (w : World) :
  let busy := isAnnouncing (speech w) || negb (hasSpeechSynthesis (env w)) in
  let u := SpeechAnnouncement.newUtterance
             (SpeechAnnouncement.announcementText (nullish (source p) "")
                (2 <? savedProgress p w)%float (pubDate p) false)
             (cachedGoogleVoice (speech w)) in
  SpeechAnnouncement.announcementText name isContinuing published true = name
  /\ (forall d, published = Some d -> d <> "" ->
        SpeechAnnouncement.announcementText name isContinuing published false =
          if isContinuing
          then "Continuing " +:+ name +:+ ", from " +:+ weekday_long d
                 +:+ " at " +:+ time_12h d +:+ "."
          else "From " +:+ name +:+ ", on " +:+ weekday_long d
                 +:+ " at " +:+ time_12h d +:+ ".")
  /\ (published = None \/ published = Some "" ->
        SpeechAnnouncement.announcementText name isContinuing published false =
          "From " +:+ name +:+ ".")
  /\ (isAnnouncing (speech w) = false -> hasSpeechSynthesis (env w) = true ->
        fst (SpeechAnnouncement.announce name isContinuing published skipPrefix w)
          = speaking (SpeechAnnouncement.announcementText name isContinuing published skipPrefix) w)
  /\ (announcedRef (refs w) = false ->
        let w' := exec (PodcastPlayer.handleCanPlay listener p) w in
        utterances (speech w') = utterances (speech w) ++ (if busy then [] else [(u, None)])
        /\ trace w'
           = trace w ++ AudioPause
               :: Announce BufferReady (nullish (source p) "")
                    (2 <? savedProgress p w)%float (pubDate p) false
               :: (if busy then [] else [SynthCancel; SynthSpeak u]))
  /\ (announcedRef (refs w) = false -> audioMounted (currentProps w) = true ->
      truthy (source p) = true -> truthy (audioUrl p) = true ->
        let w' := exec (PodcastPlayer.handlePlay p) w in
        utterances (speech w') = utterances (speech w) ++ (if busy then [] else [(u, None)])
        /\ trace w'
           = trace w ++ AudioPause
               :: Announce UserPlay (nullish (source p) "")
                    (2 <? savedProgress p w)%float (pubDate p) false
               :: (if busy then [] else [SynthCancel; SynthSpeak u])).
Proof.
  intros busy u. split; [reflexivity|]. split; [|split; [|split; [|split]]].
  - intros d -> Hd. unfold SpeechAnnouncement.announcementText; simpl.
    destruct (String.eqb_spec d ""); [contradiction | reflexivity].
  - intros [-> | ->]; reflexivity.
  - intros Hfree Hsynth. rewrite announce_unfold, Hfree, Hsynth. reflexivity.
  - intros Ha.
    destruct (handleCanPlay_turn listener p w Ha) as (_ & _ & Htrace & Hutt & _).
    split; [exact Hutt | exact Htrace].
  - intros Ha Hm Hs Hu.
    destruct (handlePlay_turn p w Hm Hs Hu Ha) as (_ & _ & Htrace & Hutt & _).
    split; [exact Hutt | exact Htrace].
Qed.

Lemma announcement_text_rules_witness :
  let fresh := run [ClickNext; AudioCanPlay] samplePage in
  let resumed := run [AudioListen 42; AudioPlayed] samplePage in
  SpeechAnnouncement.announcementText "B" true (Some "2025-01-07T09:00:00Z") false
    = "Continuing B, from Tuesday at 9:00 AM."
  /\ SpeechAnnouncement.announcementText "B" false (Some "2025-01-07T09:00:00Z") false
    = "From B, on Tuesday at 9:00 AM."
  /\ SpeechAnnouncement.announcementText "A" true None false = "From A."
  /\ SpeechAnnouncement.announcementText "A" true (Some "") false = "From A."
  /\ utt_text <$> (fst <$> utterances (speech fresh)) = ["From B, on Tuesday at 9:00 AM."]
  /\ utt_text <$> (fst <$> utterances (speech resumed)) = ["From A."].
Proof.
  intros fresh resumed.
  pose (w := run [ClickNext] samplePage).
  pose (w0 := run [AudioListen 42] samplePage).
  destruct (announcement_text_rules "B" true (Some "2025-01-07T09:00:00Z") false
              (currentProps w) 0 w) as (_ & Hc & _ & _ & Hcanplay & _).
  destruct (announcement_text_rules "B" false (Some "2025-01-07T09:00:00Z") false
              (currentProps w0) 0 w0) as (_ & Hn & _ & _ & _ & Hplay).
  destruct (announcement_text_rules "A" true None false (currentProps w) 0 w)
    as (_ & _ & Ha & _).
  destruct (announcement_text_rules "A" true (Some "") false (currentProps w) 0 w)
    as (_ & _ & He & _).
  split; [exact (Hc _ eq_refl ltac:(discriminate))|].
  split; [exact (Hn _ eq_refl ltac:(discriminate))|].
  split; [exact (Ha (or_introl eq_refl))|].
  split; [exact (He (or_intror eq_refl))|].
  split.
  - assert (Hstep : fresh = exec (PodcastPlayer.handleCanPlay 0 (currentProps w)) w)
      by (vm_compute; reflexivity).
    rewrite Hstep.
    destruct Hcanplay as [Hutt _]; [vm_compute; reflexivity|].
    rewrite Hutt. vm_compute. reflexivity.
  - assert (Hstep : resumed = exec (PodcastPlayer.handlePlay (currentProps w0)) w0)
      by (vm_compute; reflexivity).
    rewrite Hstep.
    destruct Hplay as [Hutt _]; [vm_compute; reflexivity ..|].
    rewrite Hutt. vm_compute. reflexivity.
Defined.

(** C9: once [cancelAnnouncement] has returned the engine is not busy,
    so the next [announce] is not cut short by the busy test: it creates a
    new utterance with the sentence asked for and hands it to the
    synthesizer, and the promise it returns waits for that utterance. *)
Theorem cancel_frees_engine `{Builtins} (w w' : World) (name : string)
    (isContinuing : bool) (published : option string) (skipPrefix : bool) :
  SpeechAnnouncement.cancelAnnouncement w = (w', Ok tt) ->
  let text := SpeechAnnouncement.announcementText name isContinuing published skipPrefix in
  let u := SpeechAnnouncement.newUtterance text (cachedGoogleVoice (speech w')) in
  let after := SpeechAnnouncement.announce name isContinuing published skipPrefix w' in
  isAnnouncing (speech w') = false
  /\ snd after = Ok (OnUtterance (length (utterances (speech w'))))
  /\ utterances (speech (fst after)) = utterances (speech w') ++ [(u, None)]
  /\ trace (fst after) = trace w' ++ [SynthCancel; SynthSpeak u]
  /\ isAnnouncing (speech (fst after)) = true.
Proof.
  rewrite cancelAnnouncement_unfold. intros Hc text u after. subst after.
  destruct (hasSpeechSynthesis (env w)) eqn:Hsynth; [|discriminate].
  injection Hc as <-. rewrite announce_unfold. simpl. rewrite Hsynth. simpl.
  rewrite <- app_assoc. repeat split; reflexivity.
Qed.

Lemma cancel_frees_engine_witness :
  let busy := run [AudioPlayed] samplePage in
  let w' := exec SpeechAnnouncement.cancelAnnouncement busy in
  isAnnouncing (speech busy) = true
  /\ isAnnouncing (speech w') = false
  /\ snd (SpeechAnnouncement.announce "B" false None false w') = Ok (OnUtterance 1).
Proof.
  intros busy w'.
  assert (Hc : SpeechAnnouncement.cancelAnnouncement busy = (w', Ok tt)) by reflexivity.
  destruct (cancel_frees_engine busy w' "B" false None false Hc) as (Hfree & Hpromise & _).
  split; [reflexivity|]. split; [exact Hfree|]. exact Hpromise.
Defined.

(** C10: in both announce-then-play handlers the first turn reads the
    saved offset and parks the tail on the promise of its own
    announcement: the utterance it spoke, or a promise resolved with
    ['ended'] when the engine was busy or missing.  While that promise is
    pending the tail does nothing.  Once it is resolved, and the offset is
    greater than 0, the first call of the tail is the assignment of the
    offset to [currentTime], before the result is looked at: after
    ['interrupted'] the seek is the only call, after ['ended'] the play
    follows it.  So a user play, or a [canplay] after a skip, followed by
    a pause or an abort of the utterance ends with the seek and no play.
    Offsets are positions the player saved, hence finite numbers. *)
Theorem seek_before_result_check `{Builtins} (w : World) (p : Props) (listener k : nat)
    (progress : float) (promise : Promise) (r : AnnounceResult) (e : UttEvent) :
  let g := savedProgress p w in
  let busy := isAnnouncing (speech w) || negb (hasSpeechSynthesis (env w)) in
  let awaited :=
    if busy then Settled ended else OnUtterance (length (utterances (speech w))) in
  let played (r : AnnounceResult) :=
    match r with ended => [AudioPlay] | interrupted => [] end in
  (announcedRef (refs w) = false ->
     suspended (loop (exec (PodcastPlayer.handleCanPlay listener p) w))
       = suspended (loop w) ++ [CanPlay_announced listener g awaited]
     /\ (audioMounted (currentProps w) = true ->
         truthy (source p) = true -> truthy (audioUrl p) = true ->
         suspended (loop (exec (PodcastPlayer.handlePlay p) w))
           = suspended (loop w) ++ [Play_announced g awaited]))
  /\ (forall c,
        suspended (loop w) !! k = Some c ->
        c = Play_announced progress promise
          \/ c = CanPlay_announced listener progress promise ->
        (SpeechAnnouncement.settled promise w = None -> step (Resume k) w = w)
        /\ (SpeechAnnouncement.settled promise w = Some r ->
            (0 <? progress)%float = true -> PrimFloat.is_finite progress = true ->
            trace (step (Resume k) w) = trace w ++ AudioSeek progress :: played r))
  /\ (forall uid u,
        utterances (speech w) !! uid = Some (u, None) ->
        SpeechAnnouncement.settled (OnUtterance uid) w = None
        /\ SpeechAnnouncement.settled (OnUtterance uid) (step (SpeechEvent uid e) w)
           = Some (SpeechAnnouncement.resultOf e))
  /\ (announcedRef (refs w) = false -> busy = false ->
      audioMounted (currentProps w) = true ->
      (0 <? g)%float = true -> PrimFloat.is_finite g = true ->
      let uid := length (utterances (speech w)) in
      let tail := length (suspended (loop w)) in
      (canplayListener (refs w) = Some (listener, p) ->
         step (Resume tail) (step AudioCanPlay w) = step AudioCanPlay w
         /\ trace (run [AudioCanPlay; SpeechEvent uid e; Resume tail] w)
            = trace (step AudioCanPlay w)
                ++ AudioSeek g :: played (SpeechAnnouncement.resultOf e))
      /\ (p = currentProps w -> truthy (source p) = true ->
         step (Resume tail) (step AudioPlayed w) = step AudioPlayed w
         /\ trace (run [AudioPlayed; SpeechEvent uid e; Resume tail] w)
            = trace (step AudioPlayed w)
                ++ AudioSeek g :: played (SpeechAnnouncement.resultOf e))).
Proof.
  intros g busy awaited played. split; [|split; [|split]].
  - intros Ha.
    destruct (handleCanPlay_turn listener p w Ha) as (_ & _ & _ & _ & Hsus).
    split; [exact Hsus|]. intros Hm Hs Hu.
    destruct (handlePlay_turn p w Hm Hs Hu Ha) as (_ & _ & _ & _ & Hsus').
    exact Hsus'.
  - intros c Hk Hc. split.
    + intros Hp. apply (step_Resume_pending k c listener progress promise w Hk Hc Hp).
    + intros Hp Hpos Hfin.
      rewrite (step_Resume_settled k c listener progress promise r w Hk Hc Hp Hpos), Hfin.
      reflexivity.
  - intros uid u Hu. split.
    + unfold SpeechAnnouncement.settled. rewrite Hu. reflexivity.
    + apply (step_SpeechEvent uid e u w Hu).
  - intros Ha Hbusy Hm Hpos Hfin uid k'. subst busy. split.
    + intros Hl.
      destruct (handleCanPlay_turn listener p w Ha) as (_ & _ & _ & Hutt & Hsus).
      cbv zeta in Hutt, Hsus. rewrite Hbusy in Hutt, Hsus.
      change (run [AudioCanPlay; SpeechEvent uid e; Resume k'] w)
        with (run [SpeechEvent uid e; Resume k'] (step AudioCanPlay w)).
      rewrite (step_AudioCanPlay listener p w Hl Hm).
      eapply (sequence_from_first_turn _ listener);
        [right; reflexivity | exact Hutt | exact Hsus | exact Hpos | exact Hfin].
    + intros -> Hs.
      assert (Hu : truthy (audioUrl (currentProps w)) = true).
      { unfold audioMounted in Hm. apply andb_true_iff in Hm as [_ Hm]. exact Hm. }
      destruct (handlePlay_turn (currentProps w) w Hm Hs Hu Ha) as (_ & _ & _ & Hutt & Hsus).
      cbv zeta in Hutt, Hsus. rewrite Hbusy in Hutt, Hsus.
      change (run [AudioPlayed; SpeechEvent uid e; Resume k'] w)
        with (run [SpeechEvent uid e; Resume k'] (step AudioPlayed w)).
      rewrite (step_AudioPlayed w Hm).
      eapply (sequence_from_first_turn _ listener);
        [left; reflexivity | exact Hutt | exact Hsus | exact Hpos | exact Hfin].
Qed.

Lemma seek_before_result_check_witness :
  let w := run [AudioListen 42] samplePage in
  let skipped := run [AudioListen 42; ClickNext; ClickPrevious] samplePage in
  trace (run [AudioPlayed; SpeechEvent 0 UttPause; Resume 0] w)
    = trace (step AudioPlayed w) ++ [AudioSeek 42]
  /\ trace (run [AudioCanPlay; SpeechEvent 0 UttAbort; Resume 0] skipped)
     = trace (step AudioCanPlay skipped) ++ [AudioSeek 42]
  /\ trace (run [AudioPlayed; SpeechEvent 0 UttEnd; Resume 0] w)
     = trace (step AudioPlayed w) ++ [AudioSeek 42; AudioPlay].
Proof.
  intros w skipped.
  destruct (seek_before_result_check w (currentProps w) 0 0 0 (Settled ended) ended UttPause)
    as (_ & _ & _ & Hseq).
  destruct Hseq as [_ Hplay]; [vm_compute; reflexivity ..|].
  destruct (seek_before_result_check skipped (currentProps skipped) 1 0 0 (Settled ended)
              ended UttAbort) as (_ & _ & _ & Hseq).
  destruct Hseq as [Hcanplay _]; [vm_compute; reflexivity ..|].
  destruct (seek_before_result_check w (currentProps w) 0 0 0 (Settled ended) ended UttEnd)
    as (_ & _ & _ & Hseq).
  destruct Hseq as [_ Hplay']; [vm_compute; reflexivity ..|].
  split; [apply Hplay; vm_compute; reflexivity|].
  split; [apply Hcanplay; vm_compute; reflexivity|].
  apply Hplay'; vm_compute; reflexivity.
Defined.

(** ** The throttle of the progress store *)


Lemma clearTimers_snoc ts t :
  clearTimers (ts ++ [t]) = clearTimers ts + (if isClearSave t then 1 else 0).
Proof.
  unfold clearTimers. rewrite List.filter_app, length_app. simpl.
  destruct (isClearSave t); reflexivity.
Qed.

Lemma clearTimers_delete ts k t :
  ts !! k = Some t ->
  clearTimers ts = clearTimers (delete k ts) + (if isClearSave t then 1 else 0).
Proof.
  revert k. induction ts as [|a ts IH]; intros [|k] Hk; try discriminate.
  - injection Hk as ->. unfold clearTimers. simpl. destruct (isClearSave t); simpl; lia.
  - specialize (IH k Hk). unfold clearTimers in *. simpl.
    destruct (isClearSave a); simpl; lia.
Qed.

Lemma clearTimers_quiet D ts : clearTimers ts = 0 -> Forall (quiet D) ts.
Proof.
  unfold clearTimers, quiet. induction ts as [|a ts IH]; intros Hc; constructor.
  - intros Ha. simpl in Hc. unfold isClearSave in Hc at 1. rewrite Ha in Hc. discriminate.
  - apply IH. simpl in Hc. destruct (isClearSave a); [discriminate | assumption].
Qed.

Lemma clearTimers_cancelTimer handle ts :
  clearTimers (cancelTimer handle ts) <= clearTimers ts.
Proof.
  unfold clearTimers, cancelTimer. induction ts as [|t ts IH]; simpl; [lia|].
  destruct (negb _), (isClearSave t) eqn:Ht; simpl; rewrite ?Ht; simpl; lia.
Qed.

Section Throttle.
Context `{Builtins}.

(** The effects after a render start no timer that reopens the throttle. *)
Lemma afterRender_timers old w :
  clearTimers (timers (loop (afterRender old w))) <= clearTimers (timers (loop w)).
Proof.
  unfold_handlers. split_cases.
  all: rewrite ?clearTimers_snoc; simpl;
       try (etransitivity; [apply clearTimers_cancelTimer|]); lia.
Qed.

Ltac know_timeout :=
  repeat match goal with
  | Hd : is_Some (saveTimeout _) |- _ => destruct Hd as [? Hd]
  | Hd : ~ is_Some (saveTimeout _) |- _ => apply eq_None_not_Some in Hd
  end.

Lemma dispatch_armed e w : armed w -> armed (settle (dispatch e w)).
Proof.
  unfold armed. intros Harm.
  destruct e; unfold_handlers; split_cases.
  all: decide_hyps; know_timeout.
  all: repeat match goal with
       | Hs : saveTimeout (refs _) = _ |- _ => rewrite Hs in Harm; clear Hs
       end.
  all: rewrite ?clearTimers_snoc; simpl in *; try lia.
  all: match goal with
       | Hk : timers (loop _) !! _ = Some ?t |- _ =>
           rewrite (clearTimers_delete _ _ _ Hk) in Harm; unfold isClearSave in Harm
       end.
  all: match goal with Ha : timer_action _ = _ |- _ => rewrite Ha in Harm end.
  all: destruct (saveTimeout (refs w)); lia.
Qed.

Lemma step_armed e w : armed w -> armed (step e w).
Proof.
  intros Harm. apply (dispatch_armed e) in Harm. unfold armed, step in *.
  pose proof (afterRender_timers (list_state w) (settle (dispatch e w))) as Hle.
  destruct (afterRender_frame (list_state w) (settle (dispatch e w)))
    as (_ & _ & _ & _ & Hst & _).
  cbv zeta in Hst. rewrite Hst. lia.
Qed.

Lemma run_armed evs w : armed w -> armed (run evs w).
Proof.
  revert w. induction evs as [|e evs IH]; intros w Harm; [exact Harm|].
  change (run (e :: evs) w) with (run evs (step e w)).
  apply IH, step_armed, Harm.
Qed.

Lemma boot_armed syn med vs stored : armed (boot syn med vs stored).
Proof.
  unfold armed, boot. destruct syn; unfold_handlers; reduce_state; unfold clearTimers; simpl; lia.
Qed.

Lemma dispatch_now e w : (now (env w) <= now (env (settle (dispatch e w))))%N.
Proof.
  destruct e; unfold_handlers; split_cases; lia.
Qed.

Lemma dispatch_throttled D e w :
  throttled D w -> (now (env (settle (dispatch e w))) < D)%N ->
  throttled D (settle (dispatch e w)).
Proof.
  unfold throttled. intros [[h Hs] Ht] Hnow. revert Hnow.
  destruct e; unfold_handlers; rewrite ?Hs; split_cases.
  all: intros; decide_hyps.
  all: try (exfalso;
            match goal with
            | Hk : timers (loop _) !! _ = Some ?t, Ha : timer_action ?t = ClearSaveTimeout |- _ =>
                pose proof (Forall_lookup_1 _ _ _ _ Ht Hk Ha); lia
            end).
  all: know_timeout; try congruence.
  all: split; eauto.
  all: rewrite ?Forall_app, ?Forall_singleton; repeat split; simpl;
       try discriminate; eauto using Forall_delete.
Qed.

(** While the throttle is closed only the end of a track writes to the
    store. *)
Lemma dispatch_storage e w :
  is_Some (saveTimeout (refs w)) -> e <> AudioEnded ->
  localStorage (settle (dispatch e w)) = localStorage w.
Proof.
  intros [h Hs] He.
  destruct e; try congruence; unfold_handlers; rewrite ?Hs; split_cases.
  all: decide_hyps; know_timeout; congruence.
Qed.

Lemma step_throttled D e w :
  throttled D w -> (now (env (step e w)) < D)%N -> throttled D (step e w).
Proof.
  intros Hth Hnow. unfold step in *.
  destruct (afterRender_frame (list_state w) (settle (dispatch e w)))
    as (_ & _ & _ & Henv & Hst & _ & _ & _ & Htim).
  cbv zeta in Henv, Hst, Htim. rewrite Henv in Hnow.
  destruct (dispatch_throttled D e w Hth Hnow) as [Hsome Hq].
  split; [rewrite Hst; exact Hsome | apply Htim, Hq].
Qed.

Lemma step_storage e w :
  is_Some (saveTimeout (refs w)) -> e <> AudioEnded ->
  localStorage (step e w) = localStorage w.
Proof.
  intros Hs He. unfold step.
  destruct (afterRender_frame (list_state w) (settle (dispatch e w))) as (_ & Hsto & _).
  cbv zeta in Hsto. rewrite Hsto. apply dispatch_storage; assumption.
Qed.

Lemma step_now e w : (now (env w) <= now (env (step e w)))%N.
Proof.
  unfold step.
  destruct (afterRender_frame (list_state w) (settle (dispatch e w))) as (_ & _ & _ & Henv & _).
  cbv zeta in Henv. rewrite Henv. apply dispatch_now.
Qed.

Lemma run_now evs w : (now (env w) <= now (env (run evs w)))%N.
Proof.
  revert w. induction evs as [|e evs IH]; intros w; [reflexivity|].
  etransitivity; [apply (step_now e) | apply IH].
Qed.

Lemma run_throttled D evs w :
  throttled D w -> (now (env (run evs w)) < D)%N -> throttled D (run evs w).
Proof.
  revert w. induction evs as [|e evs IH]; intros w Hth Hnow; [assumption|].
  change (run (e :: evs) w) with (run evs (step e w)) in *.
  apply IH; [|assumption]. apply step_throttled; [assumption|].
  pose proof (run_now evs (step e w)). lia.
Qed.

Lemma run_storage D evs w :
  throttled D w -> noneEnded evs = true -> (now (env (run evs w)) < D)%N ->
  localStorage (run evs w) = localStorage w.
Proof.
  revert w. induction evs as [|e evs IH]; intros w Hth Hne Hnow; [reflexivity|].
  simpl in Hne. apply andb_true_iff in Hne as [He Hne].
  change (run (e :: evs) w) with (run evs (step e w)) in *.
  assert (Hstep : (now (env (step e w)) < D)%N).
  { pose proof (run_now evs (step e w)). lia. }
  rewrite (IH (step e w)); [|apply step_throttled|..]; try assumption.
  apply step_storage; [apply Hth | intros ->; discriminate].
Qed.

Lemma savedProgress_storage p w w' :
  localStorage w = localStorage w' -> savedProgress p w = savedProgress p w'.
Proof.
  intros Hs. unfold savedProgress, ProgressPersistence.getSavedProgress,
    mbind, M_bind, mret, M_ret, get.
  destruct (negb (truthy (audioUrl p))); simpl; rewrite ?Hs; reflexivity.
Qed.

(** A save that passes the throttle writes the position, closes the
    throttle and starts the timer that reopens it 5 seconds later. *)
Lemma first_save t w :
  audioMounted (currentProps w) = true -> saveTimeout (refs w) = None ->
  let w1 := step (AudioListen t) w in
  localStorage w1
    = <[ProgressPersistence.key (audioUrl (currentProps w)) := number_toString t]>
        (localStorage w)
  /\ is_Some (saveTimeout (refs w1))
  /\ env w1 = env w
  /\ timers (loop w1) = timers (loop w)
       ++ [{| timer_id := nextTimer (loop w);
              timer_due := (now (env w) + 5000)%N;
              timer_action := ClearSaveTimeout |}].
Proof.
  intros Hm Hs w1. subst w1.
  assert (Hu : truthy (audioUrl (currentProps w)) = true).
  { unfold audioMounted in Hm. apply andb_true_iff in Hm as [_ Hm]. exact Hm. }
  unfold_handlers. rewrite Hm. reduce_state. rewrite Hm, Hu. split_cases.
  all: decide_hyps; know_timeout; try congruence.
  all: try match goal with
       | Hd : bool_decide _ || bool_decide _ = true |- _ =>
           apply orb_true_iff in Hd as [Hd|Hd]; apply bool_decide_eq_true in Hd; congruence
       end.
  all: repeat split; eauto.
Qed.

End Throttle.

(** C7: on any page the player can reach, a save that passes the throttle
    stores the position under the key of the episode, and the position
    read back is the one saved, given that the number printer and parser
    of the platform round-trip on it.  Until 5 seconds have passed on the
    clock, a further save is dropped whatever happened in between and
    whichever episode (key) is current by then; and as long as no track
    has ended, which is what clears an entry, the store is the one the
    first save left and the first position is still the one read. *)
Theorem save_then_load_throttled `{Builtins} (syn med : bool) (vs : list Voice)
    (stored : gmap string string) (start evs : list Event) (t t' : float) :
  let w := run start (boot syn med vs stored) in
  let p := currentProps w in
  let w1 := step (AudioListen t) w in
  let w2 := run evs w1 in
  audioMounted p = true -> saveTimeout (refs w) = None ->
  number_toString t <> "" -> Number_of (number_toString t) = t ->
  (now (env w2) < now (env w) + 5000)%N ->
  savedProgress p w1 = t
  /\ localStorage (step (AudioListen t') w2) = localStorage w2
  /\ (noneEnded evs = true ->
      localStorage w2 = localStorage w1
      /\ savedProgress p (step (AudioListen t') w2) = t).
Proof.
  intros w p w1 w2 Hm Hs Hprint Hparse Hnow.
  destruct (first_save t w Hm Hs) as (Hsto & Hsome & Henv & Htim).
  fold w1 in Hsto, Hsome, Henv, Htim.
  assert (Hload : savedProgress p w1 = t).
  { unfold savedProgress, ProgressPersistence.getSavedProgress, mbind, M_bind, mret, M_ret, get.
    unfold audioMounted in Hm. apply andb_true_iff in Hm as [_ Hu]. fold p in Hu.
    rewrite Hu. simpl. rewrite Hsto. fold p. rewrite lookup_insert_eq. simpl.
    destruct (String.eqb_spec (number_toString t) ""); [contradiction | exact Hparse]. }
  assert (Hth : throttled (now (env w) + 5000) w1).
  { split; [exact Hsome|]. rewrite Htim, Forall_app, Forall_singleton. split.
    - apply clearTimers_quiet.
      pose proof (run_armed start _ (boot_armed syn med vs stored)) as Harm.
      fold w in Harm. unfold armed in Harm. rewrite Hs in Harm. lia.
    - intros _. simpl. lia. }
  pose proof (run_throttled _ evs w1 Hth Hnow) as [Hclosed _]. fold w2 in Hclosed.
  assert (Hdrop : localStorage (step (AudioListen t') w2) = localStorage w2).
  { apply step_storage; [exact Hclosed | discriminate]. }
  split; [exact Hload|]. split; [exact Hdrop|].
  intros Hne. pose proof (run_storage _ evs w1 Hth Hne Hnow) as Hkeep. fold w2 in Hkeep.
  split; [exact Hkeep|].
  rewrite (savedProgress_storage p _ w1); [exact Hload | congruence].
Qed.

Lemma save_then_load_throttled_witness :
  let evs := [Tick 1000; AudioListen 60; ClickNext; Tick 2000; AudioListen 3;
              TimerFire 0; Tick 1999] in
  let w := run [Fetched sampleList] (boot true true [] ∅) in
  let p := currentProps w in
  let w1 := step (AudioListen 42) w in
  let w2 := run evs w1 in
  savedProgress p w1 = 42%float
  /\ localStorage (step (AudioListen 2) w2) = localStorage w2
  /\ (noneEnded evs = true ->
      localStorage w2 = localStorage w1
      /\ savedProgress p (step (AudioListen 2) w2) = 42%float).
Proof.
  apply (save_then_load_throttled true true [] ∅ [Fetched sampleList]
           [Tick 1000; AudioListen 60; ClickNext; Tick 2000; AudioListen 3;
            TimerFire 0; Tick 1999] 42 2);
    vm_compute; (reflexivity || discriminate).
Defined.

(** ** Lock-screen skips *)

Section MediaSkip.

Context `{Builtins}.

(** With speech synthesis in the browser a hardware skip cancels the
    speech, marks the skip, moves the index and arms the 250 ms timer. *)
Lemma media_skip_with_speech (p : Props) (w : World) (next : bool) (cb : Callback) :
  (if next then onClickNext p else onClickPrevious p) = Some cb ->
  hasSpeechSynthesis (env w) = true ->
  let handler := if next then MediaSession.nexttrack p else MediaSession.previoustrack p in
  let w' := exec handler w in
  snd (handler w) = Ok tt
  /\ trace w' = trace w ++ [SynthCancel]
  /\ isAnnouncing (speech w') = false
  /\ skipJustHappenedRef (refs w') = true
  /\ list_state w' = list_state (exec (EpisodeList.invoke cb) w)
  /\ timers (loop w') = timers (loop w)
       ++ [{| timer_id := nextTimer (loop w);
              timer_due := (now (env w) + 250)%N;
              timer_action := MediaResumePlay |}].
Proof.
  intros Hcb Hsynth handler w'. subst handler w'.
  destruct next; unfold_handlers; rewrite Hcb; reduce_state; rewrite Hsynth; reduce_state.
  all: repeat split; reflexivity.
Qed.

(** The timer plays without a look at the announcement: neither
    [announced] nor the busy flag of the engine is read. *)
Lemma media_resume_plays (w : World) :
  trace (exec (runTimer MediaResumePlay) w)
    = trace w ++ (if audioMounted (currentProps w) then [AudioPlay] else []).
Proof.
  unfold_handlers. destruct (audioMounted _); simpl; rewrite ?app_nil_r; reflexivity.
Qed.

(** Without speech synthesis the handler stops at [cancelAnnouncement]. *)
Lemma media_skip_without_speech (p : Props) (w : World) (next : bool) (cb : Callback) :
  (if next then onClickNext p else onClickPrevious p) = Some cb ->
  hasSpeechSynthesis (env w) = false ->
  let handler := if next then MediaSession.nexttrack p else MediaSession.previoustrack p in
  handler w = (on_refs (with_skipJustHappenedRef true) w,
               Throw "ReferenceError: speechSynthesis is not defined").
Proof.
  intros Hcb Hsynth handler. subst handler.
  destruct next; unfold_handlers; rewrite Hcb; reduce_state; rewrite Hsynth; reflexivity.
Qed.

End MediaSkip.

(** C8, at the input where the code departs from it: in a browser with a
    media session and without speech synthesis, the next-track signal sets
    the skip flag and then fails in [cancelAnnouncement]; the index stays,
    and no resume is scheduled.  The same holds for previous-track. *)
Theorem media_skip_needs_speech_synthesis :
  let w := run [Fetched sampleList] (boot false true [] ∅) in
  is_Some (mediaHandlers w)
  /\ (forall e, e = MediaNextTrack \/ e = MediaPreviousTrack ->
        trace (step e w)
          = trace w ++ [Uncaught "ReferenceError: speechSynthesis is not defined"]
        /\ skipJustHappenedRef (refs (step e w)) = true
        /\ currentIndex (list_state (step e w)) = currentIndex (list_state w)
        /\ timers (loop (step e w)) = timers (loop w)).
Proof.
  intros w. split; [vm_compute; eauto|].
  intros e [-> | ->]; vm_compute; repeat split; reflexivity.
Qed.

(** ** The natural end of the last episode *)

Section NaturalEnd.

Context `{Builtins}.

(** EpisodeList never tells the player that the episode is the last. *)
Lemma isLastEpisode_never_passed (w : World) : isLastEpisode (currentProps w) = None.
Proof. unfold currentProps. destruct (rootMounted w); reflexivity. Qed.

(** As EpisodeList renders the player, the handler for the end of a track
    makes no call at all: the farewell is never announced. *)
Lemma natural_end_is_silent (w : World) :
  trace (settle (dispatch AudioEnded w)) = trace w.
Proof.
  unfold_handlers. split_cases.
  all: first [reflexivity | cbn in *; discriminate].
Qed.

(** Were the prop passed, the farewell would be announced with
    [skipPrefix], hence spoken as it is, but [onEnded] has advanced the index by
    then. *)
Lemma farewell_branch (p : Props) (w : World) :
  isLastEpisode p = Some true ->
  isAnnouncing (speech w) = false -> hasSpeechSynthesis (env w) = true ->
  let w' := exec (PodcastPlayer.handleEnded p) w in
  let u := SpeechAnnouncement.newUtterance PodcastPlayer.farewell (cachedGoogleVoice (speech w)) in
  trace w' = trace w ++ [Announce NaturalEnd PodcastPlayer.farewell false None true;
                         SynthCancel; SynthSpeak u]
  /\ list_state w'
       = list_state (exec (match onEnded p with
                           | Some cb => EpisodeList.invoke cb
                           | None => skip
                           end) w).
Proof.
  intros Hlast Hfree Hsynth. unfold_handlers. rewrite Hlast. reduce_state.
  split_cases.
  all: rewrite ?Hfree, ?Hsynth in *; try discriminate.
  all: rewrite <- ?app_assoc; split; reflexivity.
Qed.
End NaturalEnd.

(** C2, at the input where the code departs from it: the last of three
    episodes ends.  Its saved progress is removed, but no farewell is
    announced or spoken, [onEnded] and [onClickNext] each advance the
    index (from 2 over 0 to 1), and the skip flag is set. *)
Theorem last_episode_end_skips_forward :
  let w := run [Fetched sampleList; ClickNext; ClickNext; AudioListen 42]
             (boot true true [] ∅) in
  let w' := step AudioEnded w in
  let k := ProgressPersistence.key (audioUrl (currentProps w)) in
  currentIndex (list_state w) = Num 2
  /\ localStorage w !! k = Some "42"
  /\ localStorage w' !! k = None
  /\ trace w' = trace w
  /\ currentIndex (list_state w') = Num 1
  /\ skipJustHappenedRef (refs w') = true.
Proof. vm_compute. repeat split; reflexivity. Qed.

(** ** The empty list *)

Section Empty.
Context `{Builtins}.

Lemma js_index_empty {A} (i : JsNum) : js_index (@nil A) i = None.
Proof. destruct i as [z|]; simpl; [destruct (0 <=? z)%Z|]; reflexivity. Qed.

Lemma render_empty l :
  episodes l = [] ->
  truthy (audioUrl (EpisodeList.render l)) = false
  /\ audioMounted (EpisodeList.render l) = false.
Proof.
  intros He. unfold audioMounted, EpisodeList.render, EpisodeList.currentEpisode.
  rewrite He, js_index_empty. simpl. rewrite andb_false_r. split; reflexivity.
Qed.

Lemma dispatch_inert e w : inert w -> inert (settle (dispatch e w)).
Proof.
  unfold inert. intros Hin.
  destruct (episodes (list_state w)) as [|ep eps] eqn:Heps.
  - destruct (Hin eq_refl) as [Hidx Hmh].
    destruct (render_empty _ Heps) as [_ Hmount].
    destruct e; unfold_handlers; rewrite ?Hmount, ?Hmh; split_cases.
    all: rewrite ?Heps; intros Hpost; decide_hyps; subst; simpl in *; try lia.
    all: split; first [assumption | reflexivity].
  - clear Hin.
    destruct e; unfold_handlers; split_cases.
    all: rewrite ?Heps; intros Hpost; decide_hyps; subst; simpl in *; try lia; try discriminate.
Qed.

Lemma afterRender_inert old w :
  episodes (list_state w) = [] -> mediaHandlers w = None ->
  mediaHandlers (afterRender old w) = None.
Proof.
  intros Heps Hmh. destruct (render_empty _ Heps) as [Hurl _].
  unfold_handlers. destruct (rootMounted w); [|exact Hmh].
  rewrite ?Hurl. split_cases.
  all: first [reflexivity | assumption | discriminate | congruence].
Qed.

Lemma step_inert e w : inert w -> inert (step e w).
Proof.
  intros Hin. apply (dispatch_inert e) in Hin. unfold inert, step in *.
  destruct (afterRender_frame (list_state w) (settle (dispatch e w))) as (Hls & _).
  cbv zeta in Hls. rewrite Hls. intros Heps. destruct (Hin Heps) as [Hidx Hmh].
  split; [exact Hidx | apply afterRender_inert; assumption].
Qed.

Lemma run_inert evs w : inert w -> inert (run evs w).
Proof.
  revert w. induction evs as [|e evs IH]; intros w Hin; [exact Hin|].
  change (run (e :: evs) w) with (run evs (step e w)).
  apply IH, step_inert, Hin.
Qed.

Lemma boot_inert syn med vs stored : inert (boot syn med vs stored).
Proof. intros _. unfold boot. destruct syn; unfold_handlers; reduce_state; split; reflexivity. Qed.

End Empty.

(** The callbacks of EpisodeList have no guard for the empty list. *)
Lemma handleNext_empty (i : JsNum) :
  EpisodeList.handleNext [] i = NaN /\ EpisodeList.handlePrevious [] (Num 0) = Num (-1).
Proof. split; [destruct i|]; reflexivity. Qed.

(** C6, as stated, fails: called on an empty list, the callbacks of
    EpisodeList change the stored index, to NaN and to -1. *)
Lemma empty_list_index_changes :
  let w := boot true true [] ∅ in
  episodes (list_state w) = []
  /\ currentIndex (list_state (exec (EpisodeList.invoke ParentNext) w))
       <> currentIndex (list_state w)
  /\ currentIndex (list_state (exec (EpisodeList.invoke ParentPrevious) w))
       <> currentIndex (list_state w).
Proof. vm_compute. repeat split; discriminate. Qed.

(** C6, amended: on every page the player can reach with an empty list
    the current episode is none, whatever the index, and the stored index
    is the initial 0: without an episode the player renders no controls
    and the media session has no handler, so no event reaches the
    callbacks that change the index, and no event changes it. *)
Theorem empty_list_is_inert `{Builtins} (syn med : bool) (vs : list Voice)
    (stored : gmap string string) (evs : list Event) (e : Event) :
  let w := run evs (boot syn med vs stored) in
  episodes (list_state w) = [] ->
  EpisodeList.currentEpisode (list_state w) = None
  /\ (forall i, js_index (episodes (list_state w)) i = None)
  /\ currentIndex (list_state w) = Num 0
  /\ audioMounted (currentProps w) = false
  /\ mediaHandlers w = None
  /\ (episodes (list_state (step e w)) = [] ->
      currentIndex (list_state (step e w)) = currentIndex (list_state w)).
Proof.
  intros w Heps.
  destruct (run_inert evs _ (boot_inert syn med vs stored) Heps) as [Hidx Hmh].
  fold w in Hidx, Hmh.
  split; [|split; [|split; [exact Hidx|split; [|split; [exact Hmh|]]]]].
  - unfold EpisodeList.currentEpisode. rewrite Heps. apply js_index_empty.
  - intros i. rewrite Heps. apply js_index_empty.
  - unfold currentProps. destruct (rootMounted w); [apply render_empty, Heps | reflexivity].
  - intros Heps'. rewrite Hidx.
    apply (step_inert e w); [|exact Heps'].
    apply run_inert, boot_inert.
Qed.

Lemma empty_list_is_inert_witness :
  let w := run [FetchFailed; ClickNext; MediaNextTrack; AudioEnded; Fetched [];
                MediaPreviousTrack; ClickPrevious; AudioPlayed]
             (boot true true [] ∅) in
  EpisodeList.currentEpisode (list_state w) = None
  /\ currentIndex (list_state w) = Num 0
  /\ currentIndex (list_state (step MediaNextTrack w)) = currentIndex (list_state w).
Proof.
  intros w.
  destruct (empty_list_is_inert true true [] ∅
              [FetchFailed; ClickNext; MediaNextTrack; AudioEnded; Fetched [];
               MediaPreviousTrack; ClickPrevious; AudioPlayed] MediaNextTrack)
    as (Hcur & _ & Hidx & _ & _ & Hstep); [vm_compute; reflexivity|].
  split; [exact Hcur|]. split; [exact Hidx|].
  apply Hstep. vm_compute. reflexivity.
Defined.

(** * Further properties of the code *)

(** ** The progress store *)

Section Store.

Context `{Builtins}.


Lemma savedProgress_unfold p w :
  savedProgress p w =
    if truthy (audioUrl p)
    then (let s := localStorage w !! ProgressPersistence.key (audioUrl p) in
          if truthy s then Number_of (nullish s "") else 0%float)
    else 0%float.
Proof.
  unfold savedProgress, ProgressPersistence.getSavedProgress, mbind, M_bind, mret, M_ret, get.
  destruct (truthy (audioUrl p)); reflexivity.
Qed.


Lemma clearProgress_storage p w :
  localStorage (exec (ProgressPersistence.clearProgress p) w)
    = if truthy (audioUrl p)
      then delete (ProgressPersistence.key (audioUrl p)) (localStorage w)
      else localStorage w.
Proof. unfold_handlers. destruct (truthy (audioUrl p)); reflexivity. Qed.


End Store.

(** X1: an episode without a stored position, or whose position was
    cleared, is read back as 0; after the natural end of a track the
    ended episode reads 0, whatever was saved for it. *)
Theorem cleared_progress_reads_zero `{Builtins} (p : Props) (w : World) :
  (localStorage w !! ProgressPersistence.key (audioUrl p) = None -> savedProgress p w = 0%float)
  /\ savedProgress p (exec (ProgressPersistence.clearProgress p) w) = 0%float
  /\ (audioMounted (currentProps w) = true ->
      savedProgress (currentProps w) (step AudioEnded w) = 0%float).
Proof.
  split; [|split].
  - intros Hnone. rewrite savedProgress_unfold, Hnone. destruct (truthy (audioUrl p)); reflexivity.
  - rewrite savedProgress_unfold, clearProgress_storage.
    destruct (truthy (audioUrl p)) eqn:Hu; [|reflexivity].
    cbv zeta. rewrite lookup_delete_eq. reflexivity.
  - intros Hm. rewrite savedProgress_unfold.
    assert (Hsto : localStorage (step AudioEnded w)
                   = localStorage (exec (ProgressPersistence.clearProgress (currentProps w)) w)).
    { unfold step.
      destruct (afterRender_frame (list_state w) (settle (dispatch AudioEnded w))) as (_ & Hs & _).
      cbv zeta in Hs. rewrite Hs. clear Hs.
      unfold_handlers. rewrite Hm. split_cases; reflexivity. }
    rewrite Hsto, clearProgress_storage.
    destruct (truthy (audioUrl (currentProps w))) eqn:Hu; [|reflexivity].
    cbv zeta. rewrite lookup_delete_eq. reflexivity.
Qed.

Lemma cleared_progress_reads_zero_witness :
  let w := run [AudioListen 42] samplePage in
  savedProgress (currentProps w) w = 42%float
  /\ savedProgress (currentProps w) (step AudioEnded w) = 0%float.
Proof.
  intros w. split; [reflexivity|].
  apply (cleared_progress_reads_zero (currentProps w) w). reflexivity.
Defined.



(** ** The sequencer under the event loop *)

Section Moves.

Context `{Builtins}.

(** What one handler can do to the state of EpisodeList. *)
Lemma dispatch_moves e w :
  let l := list_state w in
  let l' := list_state (settle (dispatch e w)) in
  l' = l \/ l' = with_listLoading false l
  \/ (exists data, (0 < length data)%nat
        /\ l' = with_listLoading false (with_currentIndex (Num 0) (with_episodes data l)))
  \/ ((audioMounted (currentProps w) = true \/ is_Some (mediaHandlers w))
      /\ (l' = advance l \/ l' = retreat l \/ l' = advance (advance l))).
Proof.
  destruct e; unfold_handlers; split_cases; decide_hyps.
  all: try (left; reflexivity).
  all: try (right; left; reflexivity).
  all: try (right; right; left; eexists; split; [|reflexivity]; lia).
  all: try match goal with
       | Hc : _ (EpisodeList.render _) = Some _ |- _ => cbn in Hc; discriminate
       end.
  all: right; right; right;
       split; [first [left; first [assumption | reflexivity | congruence] | right; eauto]|].
  all: first [left; reflexivity | right; left; reflexivity | right; right; reflexivity].
Qed.

Lemma inRange_spec l :
  inRange l = true <->
  exists i, currentIndex l = Num i /\ (0 <= i < Z.of_nat (length (episodes l)))%Z.
Proof.
  unfold inRange. destruct (currentIndex l) as [i|].
  - rewrite andb_true_iff, Z.leb_le, Z.ltb_lt. split.
    + intros Hi. exists i. split; [reflexivity | lia].
    + intros (j & Hj & Hr). injection Hj as ->. lia.
  - split; [discriminate | intros (i & Hi & _); discriminate].
Qed.

Lemma inRange_advance l : inRange l = true -> inRange (advance l) = true.
Proof.
  rewrite !inRange_spec. intros (i & Hi & Hr). unfold advance. simpl. rewrite Hi.
  rewrite handleNext_in_range by lia.
  eexists. split; [reflexivity|]. apply Z.mod_pos_bound. lia.
Qed.

Lemma inRange_retreat l : inRange l = true -> inRange (retreat l) = true.
Proof.
  rewrite !inRange_spec. intros (i & Hi & Hr). unfold retreat. simpl. rewrite Hi.
  rewrite handlePrevious_in_range. eexists. split; [reflexivity|].
  destruct (Z.eqb_spec i 0); lia.
Qed.

Lemma mounted_inRange l : audioMounted (EpisodeList.render l) = true -> inRange l = true.
Proof.
  unfold audioMounted, EpisodeList.render, EpisodeList.currentEpisode, inRange, js_index.
  simpl. destruct (currentIndex l) as [i|]; simpl.
  - destruct (Z.leb_spec 0 i); simpl; [|rewrite andb_false_r; discriminate].
    destruct (episodes l !! Z.to_nat i) eqn:Hlook; simpl; [|rewrite andb_false_r; discriminate].
    intros _. apply Z.ltb_lt. apply lookup_lt_Some in Hlook. lia.
  - rewrite andb_false_r. discriminate.
Qed.

Lemma mounted_rendered w :
  audioMounted (currentProps w) = true ->
  rootMounted w = true /\ audioMounted (EpisodeList.render (list_state w)) = true.
Proof.
  unfold currentProps. destruct (rootMounted w); [auto | discriminate].
Qed.

Lemma inRange_currentEpisode l : inRange l = true -> is_Some (EpisodeList.currentEpisode l).
Proof.
  rewrite inRange_spec. intros (i & Hi & Hr).
  unfold EpisodeList.currentEpisode, js_index. rewrite Hi.
  destruct (Z.leb_spec 0 i); [|lia]. apply lookup_lt_is_Some. lia.
Qed.

Lemma step_sound e w : sound w -> sound (step e w).
Proof.
  intros [Hin Hrange]. split; [apply step_inert, Hin|].
  rewrite step_list_state.
  destruct (dispatch_moves e w) as [Heq | [Heq | [(data & Hlen & Heq) | [Hvia Heq]]]];
    cbv zeta in Heq.
  - rewrite Heq. exact Hrange.
  - rewrite Heq. exact Hrange.
  - rewrite Heq. intros _. unfold inRange. simpl. apply Z.ltb_lt. lia.
  - assert (Hne : episodes (list_state w) <> []).
    { intros Heps. destruct (Hin Heps) as [_ Hmh].
      destruct (render_empty _ Heps) as [_ Hmount].
      destruct Hvia as [Hm | [q Hq]]; [|congruence].
      apply mounted_rendered in Hm as [_ Hm]. congruence. }
    specialize (Hrange Hne). intros _.
    destruct Heq as [-> | [-> | ->]];
      auto using inRange_advance, inRange_retreat.
Qed.

Lemma run_sound evs w : sound w -> sound (run evs w).
Proof.
  revert w. induction evs as [|e evs IH]; intros w Hs; [exact Hs|].
  change (run (e :: evs) w) with (run evs (step e w)).
  apply IH, step_sound, Hs.
Qed.

Lemma boot_sound syn med vs stored : sound (boot syn med vs stored).
Proof.
  split; [apply boot_inert|].
  unfold boot. destruct syn; unfold_handlers; reduce_state; intros Hne; contradiction.
Qed.

End Moves.

(** X3: on every page the player can reach with a non-empty list, the
    stored index is an integer inside the list (never NaN, never
    negative), so there is a current episode. *)
Theorem index_always_valid `{Builtins} (syn med : bool) (vs : list Voice)
    (stored : gmap string string) (evs : list Event) :
  let w := run evs (boot syn med vs stored) in
  episodes (list_state w) <> [] ->
  (exists i, currentIndex (list_state w) = Num i
             /\ (0 <= i < Z.of_nat (length (episodes (list_state w))))%Z)
  /\ is_Some (EpisodeList.currentEpisode (list_state w)).
Proof.
  intros w Hne.
  destruct (run_sound evs _ (boot_sound syn med vs stored)) as [_ Hrange].
  specialize (Hrange Hne). fold w in Hrange.
  split; [apply inRange_spec, Hrange | apply inRange_currentEpisode, Hrange].
Qed.

Lemma index_always_valid_witness :
  let w := run [Fetched sampleList; ClickPrevious; AudioEnded; MediaNextTrack; ClickNext]
             (boot true true [] ∅) in
  (exists i, currentIndex (list_state w) = Num i
             /\ (0 <= i < Z.of_nat (length (episodes (list_state w))))%Z)
  /\ is_Some (EpisodeList.currentEpisode (list_state w)).
Proof.
  apply (index_always_valid true true [] ∅
           [Fetched sampleList; ClickPrevious; AudioEnded; MediaNextTrack; ClickNext]).
  vm_compute. discriminate.
Defined.

(** ** Skips and the end of a track *)

Section Skips.

Context `{Builtins}.

(** The render effects write no flag but [announced], and no listener
    but their own. *)
Lemma afterRender_refs old w :
  skipJustHappenedRef (refs (afterRender old w)) = skipJustHappenedRef (refs w)
  /\ userPlayedRef (refs (afterRender old w)) = userPlayedRef (refs w).
Proof. unfold_handlers. split_cases; split; reflexivity. Qed.

Lemma ended_moves w :
  audioMounted (currentProps w) = true ->
  let w1 := settle (dispatch AudioEnded w) in
  list_state w1 = advance (advance (list_state w))
  /\ skipJustHappenedRef (refs w1) = true
  /\ localStorage w1
       = delete (ProgressPersistence.key (audioUrl (currentProps w))) (localStorage w)
  /\ trace w1 = trace w.
Proof.
  intros Hm. destruct (mounted_rendered w Hm) as [Hroot Hm'].
  assert (Hu : truthy (audioUrl (EpisodeList.render (list_state w))) = true).
  { unfold audioMounted in Hm'. apply andb_true_iff in Hm' as [_ Hm']. exact Hm'. }
  unfold_handlers. rewrite Hroot, Hm'. reduce_state. rewrite Hu. reduce_state.
  repeat split; reflexivity.
Qed.


Lemma advance_index l i :
  currentIndex l = Num i -> inRange l = true ->
  currentIndex (advance l) = Num ((i + 1) mod Z.of_nat (length (episodes l))).
Proof.
  intros Hi Hr. apply inRange_spec in Hr as (j & Hj & Hr).
  rewrite Hi in Hj. injection Hj as <-.
  unfold advance. simpl. rewrite Hi. apply handleNext_in_range; lia.
Qed.

End Skips.

(** X4: when a track ends, the player as EpisodeList renders it removes
    the stored position of that episode, makes no call to the audio
    element or the synthesizer, sets the skip flag, and moves the index
    forward twice, to (i + 2) mod n: [onEnded] and [onClickNext] are both
    given the advancing callback. *)
Theorem natural_end_advances_twice `{Builtins} (w : World) (i : Z) :
  audioMounted (currentProps w) = true ->
  currentIndex (list_state w) = Num i ->
  let n := Z.of_nat (length (episodes (list_state w))) in
  let w' := step AudioEnded w in
  currentIndex (list_state w') = Num ((i + 2) mod n)
  /\ episodes (list_state w') = episodes (list_state w)
  /\ skipJustHappenedRef (refs w') = true
  /\ localStorage w'
       = delete (ProgressPersistence.key (audioUrl (currentProps w))) (localStorage w)
  /\ trace (settle (dispatch AudioEnded w)) = trace w.
Proof.
  intros Hm Hi n w'. subst w'.
  destruct (ended_moves w Hm) as (Hls & Hskip & Hsto & Htr).
  pose proof (mounted_inRange _ (proj2 (mounted_rendered w Hm))) as Hr.
  unfold step.
  destruct (afterRender_frame (list_state w) (settle (dispatch AudioEnded w)))
    as (Hls' & Hsto' & _).
  destruct (afterRender_refs (list_state w) (settle (dispatch AudioEnded w))) as [Hskip' _].
  cbv zeta in Hls', Hsto'. rewrite Hls', Hsto', Hskip', Hls.
  split; [|repeat split; assumption].
  rewrite (advance_index _ _ (advance_index _ _ Hi Hr) (inRange_advance _ Hr)).
  simpl. fold n. f_equal.
  apply inRange_spec in Hr as (j & Hj & Hr). fold n in Hr.
  rewrite Zplus_mod_idemp_l. f_equal. lia.
Qed.

Lemma natural_end_advances_twice_witness :
  let w := run [ClickNext] samplePage in
  currentIndex (list_state w) = Num 1
  /\ currentIndex (list_state (step AudioEnded w)) = Num 0.
Proof.
  intros w. split; [reflexivity|].
  apply (natural_end_advances_twice w 1); reflexivity.
Defined.



(** ** The effects after a render *)

Section Effects.

Context `{Builtins}.

Lemma dispatch_keeps_announced e w :
  announcedRef (refs w) = true -> announcedRef (refs (settle (dispatch e w))) = true.
Proof.
  intros Ha. destruct e; unfold_handlers; split_cases.
  all: first [reflexivity | assumption | congruence].
Qed.

Lemma afterRender_reset old w :
  audioUrl (currentProps (afterRender old w)) <> audioUrl (EpisodeList.render old) ->
  truthy (audioUrl (currentProps (afterRender old w))) = true ->
  rootMounted w = true ->
  announcedRef (refs (afterRender old w)) = false.
Proof.
  intros Hne Hu Hroot. revert Hne Hu. unfold_handlers. rewrite Hroot. split_cases.
  all: intros Hne Hu; decide_hyps; try reflexivity; try discriminate; try congruence.
  all: exfalso; match goal with Hc : ~ _ <> _ |- _ => apply Hc; congruence end.
Qed.

(** What one handler can do to the canplay listener and to the media
    session. *)
Lemma dispatch_listener e w :
  (canplayListener (refs (settle (dispatch e w))) = canplayListener (refs w)
   \/ canplayListener (refs (settle (dispatch e w))) = None)
  /\ mediaHandlers (settle (dispatch e w)) = mediaHandlers w
  /\ hasMediaSession (env (settle (dispatch e w))) = hasMediaSession (env w).
Proof.
  destruct e; unfold_handlers; split_cases; auto.
  all: split; [left; congruence | auto].
Qed.

Lemma afterRender_listener old w :
  rootMounted w = true ->
  let w' := afterRender old w in
  let p := currentProps w' in
  (audioUrl (EpisodeList.render old) = audioUrl p
   /\ source (EpisodeList.render old) = source p
   /\ pubDate (EpisodeList.render old) = pubDate p
   /\ canplayListener (refs w') = canplayListener (refs w))
  \/ canplayListener (refs w') = None
  \/ exists l, canplayListener (refs w') = Some (l, p).
Proof.
  intros Hroot. unfold_handlers. rewrite Hroot.
  split_cases; split_orbs; decide_hyps; negb_hyps; try congruence.
  all: first
    [ solve [left; repeat split; first [reflexivity | apply dec_stable; assumption]]
    | solve [right; left; reflexivity]
    | solve [right; right; eexists; reflexivity] ].
Qed.

Lemma afterRender_media old w :
  rootMounted w = true ->
  mediaHandlers (afterRender old w)
    = if bool_decide (old <> list_state w)
      then (if hasMediaSession (env w)
            then expectedMediaHandlers (afterRender old w)
            else mediaHandlers w)
      else mediaHandlers w.
Proof.
  intros Hroot. unfold expectedMediaHandlers. unfold_handlers. rewrite Hroot.
  split_cases; split_orbs; try reflexivity.
  all: negb_hyps; try congruence.
  all: try (cbn in *; discriminate).
  all: decide_hyps.
  all: match goal with Hc : ~ _ <> _ |- _ => apply dec_stable in Hc; subst; congruence end.
Qed.

End Effects.

Section EffectInvariants.

Context `{Builtins}.

Lemma step_unmounted e w : rootMounted w = false -> step e w = settle (dispatch e w).
Proof.
  intros Hroot. unfold step, afterRender. rewrite dispatch_rootMounted, Hroot. reflexivity.
Qed.

Lemma currentProps_unmounted w : rootMounted w = false -> currentProps w = unrendered.
Proof. intros Hroot. unfold currentProps. rewrite Hroot. reflexivity. Qed.

Lemma step_listenerCurrent e w : listenerCurrent w -> listenerCurrent (step e w).
Proof.
  intros Hinv l q Hq.
  destruct (dispatch_listener e w) as [Hdisp _].
  destruct (rootMounted w) eqn:Hroot.
  - unfold step in *.
    assert (Hroot' : rootMounted (settle (dispatch e w)) = true)
      by (rewrite dispatch_rootMounted; exact Hroot).
    destruct (afterRender_listener (list_state w) (settle (dispatch e w)) Hroot')
      as [(Hu & Hs & Hp & Hsame) | [Hnone | [l' Hnew]]]; cbv zeta in *.
    + rewrite Hsame in Hq. rewrite <- Hu, <- Hs, <- Hp.
      destruct Hdisp as [Hkeep | Hdrop].
      * rewrite Hkeep in Hq. destruct (Hinv l q Hq) as (Hu' & Hs' & Hp').
        unfold currentProps in Hu', Hs', Hp'. rewrite Hroot in Hu', Hs', Hp'. auto.
      * rewrite Hdrop in Hq. discriminate.
    + rewrite Hnone in Hq. discriminate.
    + rewrite Hnew in Hq. injection Hq as _ <-. repeat split; reflexivity.
  - rewrite step_unmounted in * by exact Hroot.
    rewrite (currentProps_unmounted (settle (dispatch e w)))
      by (rewrite dispatch_rootMounted; exact Hroot).
    rewrite <- (currentProps_unmounted w Hroot).
    destruct Hdisp as [Hkeep | Hdrop].
    + rewrite Hkeep in Hq. apply (Hinv l q Hq).
    + rewrite Hdrop in Hq. discriminate.
Qed.

Lemma run_listenerCurrent evs w : listenerCurrent w -> listenerCurrent (run evs w).
Proof.
  revert w. induction evs as [|e evs IH]; intros w Hinv; [exact Hinv|].
  change (run (e :: evs) w) with (run evs (step e w)).
  apply IH, step_listenerCurrent, Hinv.
Qed.

Lemma step_media e w :
  mediaHandlers w = expectedMediaHandlers w ->
  mediaHandlers (step e w) = expectedMediaHandlers (step e w).
Proof.
  intros Hinv.
  destruct (dispatch_listener e w) as (_ & Hmh & Hms).
  destruct (rootMounted w) eqn:Hroot.
  - assert (Hroot' : rootMounted (settle (dispatch e w)) = true)
      by (rewrite dispatch_rootMounted; exact Hroot).
    unfold step. rewrite (afterRender_media _ _ Hroot').
    destruct (afterRender_frame (list_state w) (settle (dispatch e w)))
      as (Hls & _ & _ & Henv & _). cbv zeta in Hls, Henv.
    destruct (bool_decide (list_state w <> list_state (settle (dispatch e w)))) eqn:Hch.
    + rewrite Hms. destruct (hasMediaSession (env w)) eqn:Hhas; [reflexivity|].
      rewrite Hmh, Hinv. unfold expectedMediaHandlers.
      rewrite Henv, Hms, Hhas. reflexivity.
    + apply bool_decide_eq_false in Hch. apply dec_stable in Hch.
      rewrite Hch at 1. rewrite afterRender_idle, Hmh, Hinv.
      unfold expectedMediaHandlers, currentProps.
      rewrite Hms, dispatch_rootMounted, Hch. reflexivity.
  - rewrite step_unmounted by exact Hroot. rewrite Hmh, Hinv.
    unfold expectedMediaHandlers.
    rewrite (currentProps_unmounted w Hroot).
    rewrite (currentProps_unmounted (settle (dispatch e w)))
      by (rewrite dispatch_rootMounted; exact Hroot).
    rewrite !andb_false_r. reflexivity.
Qed.

Lemma run_media evs w :
  mediaHandlers w = expectedMediaHandlers w ->
  mediaHandlers (run evs w) = expectedMediaHandlers (run evs w).
Proof.
  revert w. induction evs as [|e evs IH]; intros w Hinv; [exact Hinv|].
  change (run (e :: evs) w) with (run evs (step e w)).
  apply IH, step_media, Hinv.
Qed.

Lemma boot_effects syn med vs stored :
  listenerCurrent (boot syn med vs stored)
  /\ mediaHandlers (boot syn med vs stored) = expectedMediaHandlers (boot syn med vs stored).
Proof.
  unfold listenerCurrent, expectedMediaHandlers, boot.
  destruct syn; unfold_handlers; reduce_state.
  all: split; [intros l q Hq; discriminate | rewrite andb_false_r; reflexivity].
Qed.

End EffectInvariants.

(** X6: [announced] is reset exactly when the episode changes: a turn of
    the loop that changes the audio URL the player is rendered with, to a
    non-empty one, leaves the flag false, and a turn that keeps the URL
    never clears a flag that was set. *)
Theorem announced_reset_on_episode_change `{Builtins} (e : Event) (w : World) :
  (audioUrl (currentProps (step e w)) <> audioUrl (currentProps w) ->
   truthy (audioUrl (currentProps (step e w))) = true ->
   announcedRef (refs (step e w)) = false)
  /\ (audioUrl (currentProps (step e w)) = audioUrl (currentProps w) ->
      announcedRef (refs w) = true ->
      announcedRef (refs (step e w)) = true).
Proof.
  split.
  - intros Hne Hu. destruct (rootMounted w) eqn:Hroot.
    + unfold step in *. apply afterRender_reset;
        [|exact Hu | rewrite dispatch_rootMounted; exact Hroot].
      unfold currentProps in Hne at 2. rewrite Hroot in Hne. exact Hne.
    + exfalso. rewrite step_unmounted in Hu by exact Hroot.
      rewrite currentProps_unmounted in Hu by (rewrite dispatch_rootMounted; exact Hroot).
      discriminate.
  - intros Heq Ha. pose proof (step_budget e w Heq) as Hb.
    pose proof (dispatch_budget e w) as Hd. cbv zeta in Hd.
    pose proof (dispatch_keeps_announced e w Ha) as Hk.
    unfold step in *.
    destruct (afterRender_frame (list_state w) (settle (dispatch e w)))
      as (_ & _ & _ & _ & _ & _ & Hslot & _).
    cbv zeta in Hslot. unfold budget in *. rewrite Ha, Hk in *.
    destruct (announcedRef (refs (afterRender (list_state w) (settle (dispatch e w)))));
      [reflexivity | lia].
Qed.

Lemma announced_reset_on_episode_change_witness :
  let w := run [AudioPlayed] samplePage in
  announcedRef (refs w) = true
  /\ announcedRef (refs (step ClickNext w)) = false
  /\ announcedRef (refs (step AudioCanPlay w)) = true.
Proof.
  intros w.
  destruct (announced_reset_on_episode_change ClickNext w) as [Hreset _].
  destruct (announced_reset_on_episode_change AudioCanPlay w) as [_ Hkeep].
  split; [vm_compute; reflexivity|]. split.
  - apply Hreset; vm_compute; [discriminate | reflexivity].
  - apply Hkeep; vm_compute; reflexivity.
Defined.

(** X7: on every page the player can reach, an attached canplay
    listener closes over the audio URL, the title and the publication
    date of the episode that is rendered now: it never announces an
    episode that is no longer current. *)
Theorem canplay_listener_never_stale `{Builtins} (syn med : bool) (vs : list Voice)
    (stored : gmap string string) (evs : list Event) (l : nat) (q : Props) :
  let w := run evs (boot syn med vs stored) in
  canplayListener (refs w) = Some (l, q) ->
  audioUrl q = audioUrl (currentProps w)
  /\ source q = source (currentProps w)
  /\ pubDate q = pubDate (currentProps w).
Proof.
  intros w Hq.
  apply (run_listenerCurrent evs _ (proj1 (boot_effects syn med vs stored)) l q Hq).
Qed.

Lemma canplay_listener_never_stale_witness :
  let w := run [Fetched sampleList; ClickNext; ClickNext; ClickPrevious]
             (boot true true [] ∅) in
  exists l q, canplayListener (refs w) = Some (l, q)
              /\ audioUrl q = audioUrl (currentProps w)
              /\ source q = source (currentProps w)
              /\ pubDate q = pubDate (currentProps w).
Proof.
  intros w. exists 2%nat, (currentProps w). split; [vm_compute; reflexivity|].
  apply (canplay_listener_never_stale true true [] ∅
           [Fetched sampleList; ClickNext; ClickNext; ClickPrevious] 2 (currentProps w)).
  vm_compute. reflexivity.
Defined.

(** X8: on every page the player can reach, the media session has
    action handlers exactly when the browser has a media session and the
    rendered episode has a non-empty audio URL and title, and the handlers
    are those of the current render, with its callbacks. *)
Theorem media_handlers_follow_render `{Builtins} (syn med : bool) (vs : list Voice)
    (stored : gmap string string) (evs : list Event) :
  let w := run evs (boot syn med vs stored) in
  mediaHandlers w =
    if hasMediaSession (env w) && truthy (audioUrl (currentProps w))
       && truthy (source (currentProps w))
    then Some (currentProps w) else None.
Proof.
  intros w. apply (run_media evs _ (proj2 (boot_effects syn med vs stored))).
Qed.

(** X9: the canplay listener is single-use.  Fired on an episode that
    is already announced, it only clears the skip flag and detaches
    itself; and a canplay event with no listener attached leaves the page
    exactly as it was. *)
Theorem canplay_listener_single_use `{Builtins} (w : World) (l : nat) (q : Props) :
  (canplayListener (refs w) = None -> step AudioCanPlay w = w)
  /\ (canplayListener (refs w) = Some (l, q) ->
      audioMounted (currentProps w) = true ->
      announcedRef (refs w) = true ->
      step AudioCanPlay w
        = on_refs (fun r => with_canplayListener None (with_skipJustHappenedRef false r)) w
      /\ step AudioCanPlay (step AudioCanPlay w) = step AudioCanPlay w).
Proof.
  assert (Hnone : forall w0, canplayListener (refs w0) = None -> step AudioCanPlay w0 = w0).
  { intros w0 Hl. rewrite step_idle by apply (dispatch_list_state AudioCanPlay).
    unfold dispatch, mbind, M_bind, get. rewrite Hl. reflexivity. }
  split; [apply Hnone|].
  intros Hl Hm Ha.
  assert (Hstep : step AudioCanPlay w
            = on_refs (fun r => with_canplayListener None (with_skipJustHappenedRef false r)) w).
  { rewrite (step_AudioCanPlay l q w Hl Hm).
    unfold_handlers. rewrite Ha. reduce_state. unfold on_refs. cbn.
    rewrite Hl, Nat.eqb_refl. reflexivity. }
  split; [exact Hstep|].
  rewrite Hstep at 1 2. apply Hnone. reflexivity.
Qed.

Lemma canplay_listener_single_use_witness :
  let w := run [ClickNext; AudioPlayed] samplePage in
  step AudioCanPlay w
    = on_refs (fun r => with_canplayListener None (with_skipJustHappenedRef false r)) w
  /\ step AudioCanPlay (step AudioCanPlay w) = step AudioCanPlay w.
Proof.
  intros w.
  destruct (canplay_listener_single_use w 0 (currentProps w)) as [_ Huse].
  apply Huse; vm_compute; reflexivity.
Defined.

(** ** The answer of the fetch *)

(** X10: the answer of the episode request.  A non-empty answer replaces
    the list, puts the index on the first episode and ends the loading
    state, so that the player is rendered with the first episode of the
    answer; an empty answer and a failed request only end the loading
    state. *)
Theorem fetch_outcome `{Builtins} (w : World) (data : list Episode) (first : Episode) :
  rootMounted w = true ->
  (data !! 0%nat = Some first ->
     list_state (step (Fetched data) w)
       = {| episodes := data; currentIndex := Num 0; listLoading := false |}
     /\ EpisodeList.currentEpisode (list_state (step (Fetched data) w)) = Some first)
  /\ list_state (step (Fetched []) w) = with_listLoading false (list_state w)
  /\ list_state (step FetchFailed w) = with_listLoading false (list_state w).
Proof.
  intros Hroot. rewrite !step_list_state. split; [|split].
  - intros Hfirst. destruct data as [|ep data]; [discriminate|].
    injection Hfirst as ->.
    unfold_handlers. rewrite Hroot. reduce_state. split; reflexivity.
  - unfold_handlers. rewrite Hroot. reflexivity.
  - unfold_handlers. rewrite Hroot. reflexivity.
Qed.

Lemma fetch_outcome_witness :
  let w := boot true true [] ∅ in
  source (currentProps (step (Fetched sampleList) w)) = Some "A"
  /\ loading (currentProps (step (Fetched sampleList) w)) = false
  /\ list_state (step FetchFailed w) = with_listLoading false (list_state w).
Proof.
  intros w.
  destruct (fetch_outcome w sampleList (sampleEpisode "A" None)) as [Hdata [_ Hfail]];
    [reflexivity|].
  destruct (Hdata eq_refl) as [Hlist _].
  unfold currentProps. rewrite Hlist.
  split; [vm_compute; reflexivity|]. split; [vm_compute; reflexivity | exact Hfail].
Defined.

(** ** Play and pause from the lock screen *)

(** X11: the play and pause actions of the media session call the audio
    element when there is one, and do nothing else; without registered
    handlers the signals are not delivered. *)
Theorem media_play_pause `{Builtins} (w : World) :
  (mediaHandlers w = None -> step MediaPlay w = w /\ step MediaPause w = w)
  /\ (is_Some (mediaHandlers w) ->
      step MediaPlay w
        = (if audioMounted (currentProps w)
           then on_trace (fun t => t ++ [AudioPlay]) w else w)
      /\ step MediaPause w
        = (if audioMounted (currentProps w)
           then on_trace (fun t => t ++ [AudioPause]) w else w)).
Proof.
  split.
  - intros Hnone. split.
    + rewrite step_idle by apply (dispatch_list_state MediaPlay).
      unfold dispatch, mbind, M_bind, get. rewrite Hnone. reflexivity.
    + rewrite step_idle by apply (dispatch_list_state MediaPause).
      unfold dispatch, mbind, M_bind, get. rewrite Hnone. reflexivity.
  - intros [q Hq]. split.
    + rewrite step_idle by apply (dispatch_list_state MediaPlay).
      unfold_handlers. rewrite Hq. reduce_state.
      destruct (audioMounted _); reflexivity.
    + rewrite step_idle by apply (dispatch_list_state MediaPause).
      unfold_handlers. rewrite Hq. reduce_state.
      destruct (audioMounted _); reflexivity.
Qed.

Lemma media_play_pause_witness :
  step MediaPause samplePage = on_trace (fun t => t ++ [AudioPause]) samplePage
  /\ step MediaPlay (boot true true [] ∅) = boot true true [] ∅.
Proof.
  destruct (media_play_pause samplePage) as [_ Hsome].
  destruct (media_play_pause (boot true true [] ∅)) as [Hnone _].
  split.
  - apply Hsome. vm_compute. eauto.
  - apply Hnone. reflexivity.
Defined.

(** ** The promise of an utterance *)

(** X12: the promise of an utterance resolves once: a later event of the
    same utterance does not change what it resolved with, though it
    clears the busy flag again; and an event for an utterance that was
    never spoken leaves the page as it is. *)
Theorem promise_resolves_once `{Builtins} (w : World) (uid : nat) (e : UttEvent)
    (u : Utterance) (r : AnnounceResult) :
  (utterances (speech w) !! uid = Some (u, Some r) ->
     SpeechAnnouncement.settled (OnUtterance uid) (step (SpeechEvent uid e) w) = Some r
     /\ isAnnouncing (speech (step (SpeechEvent uid e) w)) = false)
  /\ (utterances (speech w) !! uid = None -> step (SpeechEvent uid e) w = w).
Proof.
  split.
  - intros Hu. rewrite step_idle by apply (dispatch_list_state (SpeechEvent uid e)).
    assert (Hlt : (uid <? length (utterances (speech w)))%nat = true).
    { apply Nat.ltb_lt. eapply lookup_lt_Some; eassumption. }
    unfold_handlers. rewrite Hlt. reduce_state.
    rewrite list_lookup_alter, Hu, decide_True by reflexivity. split; reflexivity.
  - intros Hu. rewrite step_idle by apply (dispatch_list_state (SpeechEvent uid e)).
    assert (Hge : (uid <? length (utterances (speech w)))%nat = false).
    { apply Nat.ltb_ge. apply lookup_ge_None. exact Hu. }
    unfold_handlers. rewrite Hge. reflexivity.
Qed.

Lemma promise_resolves_once_witness :
  let w := run [AudioPlayed; SpeechEvent 0 UttPause] samplePage in
  SpeechAnnouncement.settled (OnUtterance 0) w = Some interrupted
  /\ SpeechAnnouncement.settled (OnUtterance 0) (step (SpeechEvent 0 UttEnd) w)
     = Some interrupted
  /\ step (SpeechEvent 7 UttEnd) w = w.
Proof.
  intros w.
  destruct (promise_resolves_once w 0 UttEnd
              (SpeechAnnouncement.newUtterance "From A." None) interrupted) as [Honce _].
  destruct (promise_resolves_once w 7 UttEnd
              (SpeechAnnouncement.newUtterance "From A." None) interrupted) as [_ Hnone].
  split; [vm_compute; reflexivity|]. split.
  - apply Honce. vm_compute. reflexivity.
  - apply Hnone. vm_compute. reflexivity.
Defined.

(** ** The throttle reopens *)

Section Reopen.

Context `{Builtins}.

Lemma step_Tick dt w : step (Tick dt) w = on_env (fun v => with_now (now v + dt)%N v) w.
Proof. rewrite step_idle by apply (dispatch_list_state (Tick dt)). reflexivity. Qed.

(** A timer fires when it is due and not before. *)
Lemma step_TimerFire k t w :
  timers (loop w) !! k = Some t ->
  step (TimerFire k) w
    = if (timer_due t <=? now (env w))%N
      then settle (runTimer (timer_action t)
                     (on_loop (fun l => with_timers (delete k (timers l)) l) w))
      else w.
Proof.
  intros Hk. rewrite step_idle by apply (dispatch_list_state (TimerFire k)).
  unfold dispatch, mbind, M_bind, get, when, modify. rewrite Hk.
  destruct (timer_due t <=? now (env w))%N; reflexivity.
Qed.

End Reopen.

(** X13: the throttle of the progress store reopens.  After a save at
    time T the timer that clears [saveTimeout] is due at T + 5000: fired
    before, it does nothing; fired once the clock has reached that time,
    it clears [saveTimeout], and the next save is written. *)
Theorem throttle_reopens `{Builtins} (w : World) (t t' : float) (dt : N) :
  audioMounted (currentProps w) = true -> saveTimeout (refs w) = None ->
  let k := length (timers (loop w)) in
  let w1 := step (AudioListen t) w in
  let w2 := step (Tick dt) w1 in
  let w3 := step (TimerFire k) w2 in
  ((dt < 5000)%N -> w3 = w2)
  /\ ((5000 <= dt)%N ->
      saveTimeout (refs w3) = None
      /\ timers (loop w3) = timers (loop w)
      /\ localStorage (step (AudioListen t') w3)
         = <[ProgressPersistence.key (audioUrl (currentProps w)) := number_toString t']>
             (localStorage w1)).
Proof.
  intros Hm Hs k w1 w2 w3.
  destruct (first_save t w Hm Hs) as (Hsto & Hsome & Henv & Htim).
  fold w1 in Hsto, Hsome, Henv, Htim.
  assert (Hl1 : list_state w1 = list_state w).
  { unfold w1. rewrite step_list_state. apply (dispatch_list_state (AudioListen t)). }
  assert (Hr1 : rootMounted w1 = rootMounted w).
  { unfold w1. rewrite step_idle by apply (dispatch_list_state (AudioListen t)).
    apply dispatch_rootMounted. }
  assert (Hk : timers (loop w2) !! k
               = Some {| timer_id := nextTimer (loop w);
                         timer_due := (now (env w) + 5000)%N;
                         timer_action := ClearSaveTimeout |}).
  { unfold w2. rewrite step_Tick. simpl. rewrite Htim. apply list_lookup_middle. reflexivity. }
  assert (Hnow : now (env w2) = (now (env w) + dt)%N).
  { unfold w2. rewrite step_Tick. simpl. rewrite Henv. reflexivity. }
  unfold w3. rewrite (step_TimerFire k _ w2 Hk). simpl timer_due. simpl timer_action.
  rewrite Hnow. split.
  - intros Hdt. destruct (N.leb_spec (now (env w) + 5000) (now (env w) + dt)); [lia|].
    reflexivity.
  - intros Hdt. destruct (N.leb_spec (now (env w) + 5000) (now (env w) + dt)); [|lia].
    assert (Htim2 : timers (loop w2) = timers (loop w)
              ++ [{| timer_id := nextTimer (loop w);
                     timer_due := (now (env w) + 5000)%N;
                     timer_action := ClearSaveTimeout |}]).
    { unfold w2. rewrite step_Tick. simpl. exact Htim. }
    set (w3' := settle (runTimer ClearSaveTimeout
                  (on_loop (fun l => with_timers (delete k (timers l)) l) w2))).
    assert (Hs3 : saveTimeout (refs w3') = None) by reflexivity.
    assert (Ht3 : timers (loop w3') = timers (loop w)).
    { unfold w3'. simpl. rewrite Htim2. unfold k.
      rewrite delete_middle. rewrite app_nil_r. reflexivity. }
    assert (Hcur : currentProps w3' = currentProps w).
    { unfold w3', w2. rewrite step_Tick. unfold currentProps. simpl.
      rewrite Hr1, Hl1. reflexivity. }
    split; [exact Hs3|]. split; [exact Ht3|].
    assert (Hm3 : audioMounted (currentProps w3') = true) by (rewrite Hcur; exact Hm).
    destruct (first_save t' w3' Hm3 Hs3) as (Hsto' & _).
    rewrite Hsto', Hcur. f_equal.
    unfold w3', w2. rewrite step_Tick. reflexivity.
Qed.

Lemma throttle_reopens_witness :
  let k := length (timers (loop samplePage)) in
  let w1 := step (AudioListen 42) samplePage in
  let early := step (TimerFire k) (step (Tick 4999) w1) in
  let late := step (TimerFire k) (step (Tick 5000) w1) in
  early = step (Tick 4999) w1
  /\ saveTimeout (refs late) = None
  /\ localStorage (step (AudioListen 60) late)
     = <[ProgressPersistence.key (audioUrl (currentProps samplePage)) := "60"]>
         (localStorage w1).
Proof.
  intros k w1 early late.
  destruct (throttle_reopens samplePage 42 60 4999) as [Hearly _]; [reflexivity ..|].
  destruct (throttle_reopens samplePage 42 60 5000) as [_ Hlate]; [reflexivity ..|].
  split; [apply Hearly; reflexivity|].
  destruct Hlate as (Hnone & _ & Hsto); [reflexivity|].
  split; [exact Hnone | exact Hsto].
Defined.

(** ** The stored position when an episode is loaded *)

Section Load.

Context `{Builtins}.

Lemma truthy_Some s : s <> "" -> truthy (Some s) = true.
Proof. intros Hs. simpl. destruct (String.eqb_spec s ""); [contradiction | reflexivity]. Qed.

Lemma afterRender_load old w s :
  rootMounted w = true ->
  let p := EpisodeList.render (list_state w) in
  audioUrl (EpisodeList.render old) <> audioUrl p ->
  audioMounted p = true ->
  localStorage w !! ProgressPersistence.key (audioUrl p) = Some s -> s <> "" ->
  let w' := afterRender old w in
  (PrimFloat.is_finite (Number_of s) = true ->
     rootMounted w' = true /\ trace w' = trace w ++ [AudioSeek (Number_of s)])
  /\ (PrimFloat.is_finite (Number_of s) = false ->
     rootMounted w' = false
     /\ trace w' = trace w ++ [Uncaught "TypeError: the provided double value is non-finite"]
     /\ canplayListener (refs w') = None
     /\ (hasMediaSession (env w) = true -> mediaHandlers w' = None)).
Proof.
  intros Hroot p Hne Hm Hs Hne' w'. subst p w'.
  assert (Hu : truthy (audioUrl (EpisodeList.render (list_state w))) = true).
  { unfold audioMounted in Hm. apply andb_true_iff in Hm as [_ Hm]. exact Hm. }
  pose proof (truthy_Some s Hne') as Hts.
  unfold_handlers. rewrite Hroot. rewrite (bool_decide_eq_true_2 _ Hne). split_cases.
  all: rewrite ?Hs in *; cbn [nullish] in *.
  all: rewrite ?Hm, ?Hu, ?Hts in *; cbn [negb] in *; try discriminate.
  all: split; intros Hfin; try congruence.
  all: repeat split; try reflexivity; congruence.
Qed.

Lemma afterRender_load_none old w :
  rootMounted w = true ->
  let p := EpisodeList.render (list_state w) in
  audioUrl (EpisodeList.render old) <> audioUrl p ->
  localStorage w !! ProgressPersistence.key (audioUrl p) = None ->
  let w' := afterRender old w in
  rootMounted w' = true /\ trace w' = trace w.
Proof.
  intros Hroot p Hne Hs w'. subst p w'.
  unfold_handlers. rewrite Hroot. rewrite (bool_decide_eq_true_2 _ Hne). split_cases.
  all: rewrite ?Hs in *; cbn [truthy] in *; try discriminate.
  all: repeat split; try reflexivity; congruence.
Qed.

End Load.

(** X14: what an episode change does with the stored position.  When a
    turn changes the audio URL and the audio element is rendered, the
    effect after the render reads the position stored for the new episode:
    with none stored it makes no call; a stored string that parses to a
    finite number is assigned to [currentTime]; one that does not (a
    foreign entry such as a word, which parses to NaN) makes the
    assignment a TypeError, which leaves the effect, and React unmounts
    the tree: no audio element, no canplay listener, no action handler of
    the media session is left. *)
Theorem stored_position_on_load `{Builtins} (e : Event) (w : World) (s : string) :
  rootMounted w = true ->
  let w1 := settle (dispatch e w) in
  let p := EpisodeList.render (list_state w1) in
  audioUrl (currentProps w) <> audioUrl p ->
  audioMounted p = true ->
  let stored := localStorage w1 !! ProgressPersistence.key (audioUrl p) in
  (stored = None -> rootMounted (step e w) = true /\ trace (step e w) = trace w1)
  /\ (stored = Some s -> s <> "" ->
      (PrimFloat.is_finite (Number_of s) = true ->
         rootMounted (step e w) = true
         /\ trace (step e w) = trace w1 ++ [AudioSeek (Number_of s)])
      /\ (PrimFloat.is_finite (Number_of s) = false ->
         rootMounted (step e w) = false
         /\ trace (step e w)
            = trace w1 ++ [Uncaught "TypeError: the provided double value is non-finite"]
         /\ audioMounted (currentProps (step e w)) = false
         /\ canplayListener (refs (step e w)) = None
         /\ (hasMediaSession (env w1) = true -> mediaHandlers (step e w) = None))).
Proof.
  intros Hroot w1 p Hne Hm stored.
  assert (Hroot1 : rootMounted w1 = true).
  { unfold w1. rewrite dispatch_rootMounted. exact Hroot. }
  assert (Hne1 : audioUrl (EpisodeList.render (list_state w)) <> audioUrl p).
  { unfold currentProps in Hne. rewrite Hroot in Hne. exact Hne. }
  unfold step. fold w1. split.
  - intros Hs. apply (afterRender_load_none (list_state w) w1 Hroot1 Hne1 Hs).
  - intros Hs Hs'.
    destruct (afterRender_load (list_state w) w1 s Hroot1 Hne1 Hm Hs Hs') as [Hfin Hnan].
    split; [exact Hfin|].
    intros Hn. destruct (Hnan Hn) as (Hdead & Htrace & Hl & Hmh).
    split; [exact Hdead|]. split; [exact Htrace|]. split; [|split; assumption].
    unfold currentProps. rewrite Hdead. reflexivity.
Qed.

Lemma stored_position_on_load_witness :
  let urlB := "progress_https://cdn.example/B.mp3" in
  let good := run [Fetched sampleList] (boot true true [] {[ urlB := "42" ]}) in
  let bad := run [Fetched sampleList] (boot true true [] {[ urlB := "soon" ]}) in
  trace (step ClickNext good) = trace (settle (dispatch ClickNext good)) ++ [AudioSeek 42]
  /\ rootMounted (step ClickNext bad) = false
  /\ audioMounted (currentProps (step ClickNext bad)) = false.
Proof.
  intros urlB good bad.
  destruct (stored_position_on_load ClickNext good "42") as [_ Hgood];
    [vm_compute; (reflexivity || discriminate) ..|].
  destruct (stored_position_on_load ClickNext bad "soon") as [_ Hbad];
    [vm_compute; (reflexivity || discriminate) ..|].
  destruct Hgood as [Hseek _]; [vm_compute; reflexivity | discriminate|].
  destruct Hbad as [_ Hdead]; [vm_compute; reflexivity | discriminate|].
  destruct Hseek as [_ Hseek]; [vm_compute; reflexivity|].
  destruct Hdead as (Hroot & _ & Hm & _); [vm_compute; reflexivity|].
  split; [exact Hseek|]. split; [exact Hroot | exact Hm].
Defined.

(** ** After React has unmounted the tree *)

Section Dead.

Context `{Builtins}.

Lemma dispatch_dead e w :
  rootMounted w = false -> mediaHandlers w = None ->
  let w' := settle (dispatch e w) in
  list_state w' = list_state w /\ localStorage w' = localStorage w
  /\ mediaHandlers w' = None.
Proof.
  intros Hroot Hmh. destruct e; unfold_handlers; rewrite ?Hroot, ?Hmh; split_cases.
  all: repeat split; first [reflexivity | assumption | discriminate].
Qed.

Lemma run_dead evs w :
  rootMounted w = false -> mediaHandlers w = None ->
  rootMounted (run evs w) = false /\ mediaHandlers (run evs w) = None
  /\ list_state (run evs w) = list_state w /\ localStorage (run evs w) = localStorage w.
Proof.
  revert w. induction evs as [|e evs IH]; intros w Hroot Hmh; [auto|].
  change (run (e :: evs) w) with (run evs (step e w)).
  destruct (dispatch_dead e w Hroot Hmh) as (Hls & Hsto & Hmh').
  cbv zeta in Hls, Hsto, Hmh'.
  assert (Hroot' : rootMounted (step e w) = false).
  { rewrite step_unmounted by exact Hroot. rewrite dispatch_rootMounted. exact Hroot. }
  rewrite <- (step_unmounted e w Hroot) in Hls, Hsto, Hmh'.
  destruct (IH (step e w) Hroot' Hmh') as (Hr & Hm & Hl & Hs).
  rewrite Hl, Hs. auto.
Qed.

End Dead.

(** X15: once React has unmounted the tree the page is dead.  On every
    page the player can reach in that state, whatever happens afterwards,
    the tree stays unmounted, there is no audio element and no action
    handler of the media session, and neither the state of EpisodeList
    nor the progress store changes any more. *)
Theorem unmounted_page_is_dead `{Builtins} (syn med : bool) (vs : list Voice)
    (stored : gmap string string) (evs later : list Event) :
  let w := run evs (boot syn med vs stored) in
  rootMounted w = false ->
  let w' := run later w in
  rootMounted w' = false
  /\ audioMounted (currentProps w') = false
  /\ mediaHandlers w' = None
  /\ list_state w' = list_state w
  /\ localStorage w' = localStorage w.
Proof.
  intros w Hroot w'.
  assert (Hmh : mediaHandlers w = None).
  { unfold w. rewrite (run_media evs _ (proj2 (boot_effects syn med vs stored))).
    fold w. unfold expectedMediaHandlers. rewrite (currentProps_unmounted w Hroot).
    rewrite andb_false_r. reflexivity. }
  destruct (run_dead later w Hroot Hmh) as (Hr & Hm & Hl & Hs). fold w' in Hr, Hm, Hl, Hs.
  split; [exact Hr|]. split; [|auto].
  rewrite (currentProps_unmounted w' Hr). reflexivity.
Qed.

Lemma unmounted_page_is_dead_witness :
  let urlA := "progress_https://cdn.example/A.mp3" in
  let w := run [Fetched sampleList] (boot true true [] {[ urlA := "soon" ]}) in
  let w' := run [AudioPlayed; ClickNext; MediaNextTrack; AudioListen 3; Fetched sampleList] w in
  rootMounted w' = false
  /\ audioMounted (currentProps w') = false
  /\ mediaHandlers w' = None
  /\ list_state w' = list_state w
  /\ localStorage w' = localStorage w.
Proof.
  apply (unmounted_page_is_dead true true [] {[ "progress_https://cdn.example/A.mp3" := "soon" ]}
           [Fetched sampleList]
           [AudioPlayed; ClickNext; MediaNextTrack; AudioListen 3; Fetched sampleList]).
  vm_compute. reflexivity.
Defined.

(** ** The voice of the announcements *)

Section Voices.

Context `{Builtins}.

Lemma voiceOk_newUtterance text c :
  (forall v, c = Some v -> isPreferredVoice v = true) ->
  voiceOk (SpeechAnnouncement.newUtterance text c).
Proof.
  intros Hc. unfold voiceOk, SpeechAnnouncement.newUtterance.
  destruct c as [v|]; simpl; [split; [apply Hc|]|]; reflexivity.
Qed.

Lemma find_preferred vs v :
  find (fun v => String.eqb (voice_name v) "Google UK English Female") vs = Some v ->
  isPreferredVoice v = true.
Proof. intros Hf. apply find_some in Hf as [_ Hf]. exact Hf. Qed.

Lemma dispatch_voices e w : voicesOk w -> voicesOk (settle (dispatch e w)).
Proof.
  unfold voicesOk. intros [Hc Hu].
  destruct e; unfold_handlers; split_cases.
  all: split; [first [exact Hc | intros v Hv; first [exact (find_preferred _ _ Hv)
                                                     | apply Hc; exact Hv]]|].
  all: rewrite ?Forall_app, ?Forall_singleton; repeat split; try exact Hu.
  all: first [ apply voiceOk_newUtterance; exact Hc
             | apply Forall_alter; [exact Hu | intros [u r] _ Hok; exact Hok] ].
Qed.

Lemma step_voices e w : voicesOk w -> voicesOk (step e w).
Proof.
  intros Hv. apply (dispatch_voices e) in Hv. unfold voicesOk, step in *.
  destruct (afterRender_frame (list_state w) (settle (dispatch e w))) as (_ & _ & Hsp & _).
  cbv zeta in Hsp. rewrite Hsp. exact Hv.
Qed.

Lemma run_voices evs w : voicesOk w -> voicesOk (run evs w).
Proof.
  revert w. induction evs as [|e evs IH]; intros w Hv; [exact Hv|].
  change (run (e :: evs) w) with (run evs (step e w)).
  apply IH, step_voices, Hv.
Qed.

Lemma boot_voices syn med vs stored : voicesOk (boot syn med vs stored).
Proof.
  unfold voicesOk, boot. destruct syn; unfold_handlers; reduce_state.
  all: split; [intros v Hv; first [exact (find_preferred _ _ Hv) | discriminate] | constructor].
Qed.

End Voices.

(** X16: the engine prefers the voice named "Google UK English Female".
    When the list of voices arrives or changes, the first voice of that
    name is cached, or none; and on every page the player can reach,
    every utterance that was spoken has either that voice, with the
    language of the voice, or no voice and no language of its own, which
    leaves both to the platform. *)
Theorem preferred_voice_or_default `{Builtins} (syn med : bool) (vs vs' : list Voice)
    (stored : gmap string string) (evs : list Event) :
  let w := run evs (boot syn med vs stored) in
  (hasSpeechSynthesis (env w) = true ->
   cachedGoogleVoice (speech (step (VoicesChanged vs') w))
     = find (fun v => String.eqb (voice_name v) "Google UK English Female") vs')
  /\ (forall v, cachedGoogleVoice (speech w) = Some v ->
        voice_name v = "Google UK English Female")
  /\ Forall (fun up =>
       match utt_voice (fst up) with
       | Some v => voice_name v = "Google UK English Female"
                   /\ utt_lang (fst up) = Some (voice_lang v)
       | None => utt_lang (fst up) = None
       end) (utterances (speech w)).
Proof.
  intros w.
  destruct (run_voices evs _ (boot_voices syn med vs stored)) as [Hc Hu]. fold w in Hc, Hu.
  split; [|split].
  - intros Hsyn. rewrite step_idle by apply (dispatch_list_state (VoicesChanged vs')).
    unfold_handlers. rewrite Hsyn. reflexivity.
  - intros v Hv. apply String.eqb_eq. apply (Hc v Hv).
  - eapply Forall_impl; [exact Hu|]. intros [u r]. unfold voiceOk. simpl.
    destruct (utt_voice u) as [v|]; [|auto].
    intros [Hp Hl]. split; [apply String.eqb_eq; exact Hp | exact Hl].
Qed.

Lemma preferred_voice_or_default_witness :
  let google := {| voice_name := "Google UK English Female"; voice_lang := "en-GB" |} in
  let other := {| voice_name := "Alex"; voice_lang := "en-US" |} in
  let w := run [Fetched sampleList; AudioPlayed] (boot true true [other; google] ∅) in
  cachedGoogleVoice (speech (step (VoicesChanged [other]) w)) = None
  /\ utt_lang <$> (fst <$> utterances (speech w)) = [Some "en-GB"].
Proof.
  intros google other w.
  destruct (preferred_voice_or_default true true [other; google] [other] ∅
              [Fetched sampleList; AudioPlayed]) as (Hload & _ & _).
  split; [apply Hload; reflexivity | vm_compute; reflexivity].
Defined.

(** ** Utterances per activation *)

Section Spoken.

Context `{Builtins}.

(** As EpisodeList renders the player, an utterance is spoken only by a
    handler that takes the announcement slot. *)
Lemma dispatch_spoken e w :
  let w' := settle (dispatch e w) in
  spoken (trace w') + budget w' <= spoken (trace w) + budget w.
Proof.
  destruct e; unfold_handlers; unfold budget, spoken.
  all: split_cases.
  all: try match goal with
       | Hc : context [EpisodeList.render] |- _ => solve [cbn in Hc; discriminate]
       end.
  all: rewrite ?List.filter_app, ?length_app; simpl; lia.
Qed.

Lemma afterRender_spoken old w : spoken (trace (afterRender old w)) = spoken (trace w).
Proof.
  unfold_handlers. unfold spoken. split_cases.
  all: rewrite ?List.filter_app, ?length_app; simpl; lia.
Qed.

Lemma step_spoken e w :
  audioUrl (currentProps (step e w)) = audioUrl (currentProps w) ->
  spoken (trace (step e w)) + budget (step e w) <= spoken (trace w) + budget w.
Proof.
  intros Hurl. pose proof (dispatch_spoken e w) as Hd. cbv zeta in Hd.
  pose proof (step_budget e w Hurl) as Hb.
  pose proof (dispatch_budget e w) as Hdb. cbv zeta in Hdb.
  unfold step in *. rewrite afterRender_spoken.
  destruct (afterRender_frame (list_state w) (settle (dispatch e w)))
    as (_ & _ & _ & _ & _ & _ & Hslot & _).
  cbv zeta in Hslot. lia.
Qed.

Lemma run_spoken evs w :
  sameEpisode evs w = true ->
  spoken (trace (run evs w)) + budget (run evs w) <= spoken (trace w) + budget w.
Proof.
  revert w. induction evs as [|e evs IH]; intros w Hsame; [reflexivity|].
  simpl in Hsame. apply andb_true_iff in Hsame as [Hurl Hrest].
  apply bool_decide_eq_true in Hurl.
  change (run (e :: evs) w) with (run evs (step e w)).
  etransitivity; [apply (IH _ Hrest) | apply step_spoken, Hurl].
Qed.

End Spoken.

(** X17: while one episode stays active, at most one utterance is handed
    to the synthesizer, whatever the order in which the events, the
    suspended handlers and the timers run, and none when the episode was
    announced before: the bound on the announcements holds for the calls
    of [speechSynthesis.speak] themselves. *)
Theorem one_utterance_per_activation `{Builtins} (evs : list Event) (w : World) :
  sameEpisode evs w = true ->
  spoken (trace (run evs w)) <= spoken (trace w) + (if announcedRef (refs w) then 0 else 1).
Proof.
  intros Hsame. pose proof (run_spoken evs w Hsame) as Hb. unfold budget in Hb.
  destruct (announcedRef (refs (run evs w))), (announcedRef (refs w)); lia.
Qed.

Lemma one_utterance_per_activation_witness :
  let w := run [Fetched sampleList; ClickNext] (boot true true [] ∅) in
  let evs := [AudioPlayed; AudioCanPlay; SpeechEvent 0 UttEnd; AudioCanPlay;
              Resume 0; AudioPlayed; Resume 0; AudioCanPlay] in
  spoken (trace (run evs w)) <= spoken (trace w) + 1.
Proof.
  intros w evs.
  apply (one_utterance_per_activation evs w).
  vm_compute. reflexivity.
Defined.

(** ** The canplay listener after a skip *)

Section Attach.

Context `{Builtins}.

Lemma afterRender_attach old w :
  rootMounted w = true ->
  let p := EpisodeList.render (list_state w) in
  audioUrl (EpisodeList.render old) <> audioUrl p ->
  audioMounted p = true -> truthy (source p) = true ->
  let w' := afterRender old w in
  rootMounted w' = true ->
  (skipJustHappenedRef (refs w) = true ->
     canplayListener (refs w') = Some (nextListener (loop w), p)
     /\ nextListener (loop w') = S (nextListener (loop w))
     /\ timers (loop w') = timers (loop w)
          ++ [{| timer_id := nextTimer (loop w); timer_due := (now (env w) + 0)%N;
                 timer_action := CanPlayFallback |}])
  /\ (skipJustHappenedRef (refs w) = false ->
     canplayListener (refs w') = None /\ timers (loop w') = timers (loop w)).
Proof.
  intros Hroot p Hne Hm Hs w'. subst p w'.
  assert (Hu : truthy (audioUrl (EpisodeList.render (list_state w))) = true).
  { unfold audioMounted in Hm. apply andb_true_iff in Hm as [_ Hm]. exact Hm. }
  unfold_handlers. rewrite Hroot. rewrite (bool_decide_eq_true_2 _ Hne). split_cases.
  all: rewrite ?Hm, ?Hu, ?Hs in *; cbn [negb orb] in *; try discriminate.
  all: intros Hlive; try discriminate.
  all: split; intros Hskip; rewrite ?Hskip in *; cbn [negb] in *; try discriminate.
  all: repeat split; try reflexivity; congruence.
Qed.

End Attach.

(** X18: the effect "announce + autoplay after a skip".  When a turn
    changes the episode and the player is rendered with an audio element
    and a title, a listener for [canplay] is attached exactly if the skip
    flag is set: it is a fresh listener that closes over the props of
    this render, and the next-tick timer is started with it; without the
    flag no listener is left on the element. *)
Theorem canplay_listener_after_skip `{Builtins} (e : Event) (w : World) :
  let w1 := settle (dispatch e w) in
  let w' := step e w in
  rootMounted w' = true ->
  audioUrl (currentProps w') <> audioUrl (currentProps w) ->
  audioMounted (currentProps w') = true -> truthy (source (currentProps w')) = true ->
  (skipJustHappenedRef (refs w1) = true ->
     canplayListener (refs w') = Some (nextListener (loop w1), currentProps w')
     /\ timers (loop w') = timers (loop w1)
          ++ [{| timer_id := nextTimer (loop w1); timer_due := (now (env w1) + 0)%N;
                 timer_action := CanPlayFallback |}])
  /\ (skipJustHappenedRef (refs w1) = false -> canplayListener (refs w') = None).
Proof.
  intros w1 w' Hlive Hne Hm Hs.
  assert (Hroot : rootMounted w = true).
  { destruct (rootMounted w) eqn:Hroot; [reflexivity|].
    unfold w' in Hlive. rewrite step_unmounted in Hlive by exact Hroot.
    rewrite dispatch_rootMounted in Hlive. congruence. }
  assert (Hroot1 : rootMounted w1 = true).
  { unfold w1. rewrite dispatch_rootMounted. exact Hroot. }
  assert (Hcur : currentProps w' = EpisodeList.render (list_state w1)).
  { unfold currentProps. rewrite Hlive. unfold w'. rewrite step_list_state. reflexivity. }
  rewrite Hcur in *. unfold currentProps in Hne. rewrite Hroot in Hne.
  assert (Hne1 : audioUrl (EpisodeList.render (list_state w))
                 <> audioUrl (EpisodeList.render (list_state w1))) by congruence.
  destruct (afterRender_attach (list_state w) w1 Hroot1 Hne1 Hm Hs Hlive) as [Hset Hclear].
  split.
  - intros Hskip. destruct (Hset Hskip) as (Hl & _ & Ht). split; assumption.
  - intros Hskip. apply (Hclear Hskip).
Qed.

Lemma canplay_listener_after_skip_witness :
  let w' := step ClickNext samplePage in
  let w1 := settle (dispatch ClickNext samplePage) in
  canplayListener (refs w') = Some (nextListener (loop w1), currentProps w')
  /\ nextListener (loop w1) = 0%nat
  /\ source (currentProps w') = Some "B".
Proof.
  intros w' w1.
  destruct (canplay_listener_after_skip ClickNext samplePage) as [Hset _];
    [vm_compute; (reflexivity || discriminate) ..|].
  destruct Hset as [Hl _]; [vm_compute; reflexivity|].
  split; [exact Hl|]. split; vm_compute; reflexivity.
Defined.

(** X19: the end of the canplay handler.  When the promise of
    [audioEl.play()] has settled, the tail clears the skip flag and
    detaches its own listener; a listener that a later render attached
    stays on the element.  The tail of the user play ends without a
    trace. *)
Theorem canplay_tail_detaches_itself `{Builtins} (w : World) (k listener : nat) :
  let w' := step (Resume k) w in
  (suspended (loop w) !! k = Some (CanPlay_played listener) ->
     skipJustHappenedRef (refs w') = false
     /\ trace w' = trace w
     /\ suspended (loop w') = delete k (suspended (loop w))
     /\ canplayListener (refs w')
        = match canplayListener (refs w) with
          | Some (l, q) => if (l =? listener)%nat then None else Some (l, q)
          | None => None
          end)
  /\ (suspended (loop w) !! k = Some Play_played ->
      w' = on_loop (fun l => with_suspended (delete k (suspended l)) l) w).
Proof.
  intros w'. subst w'. rewrite step_idle by apply (dispatch_list_state (Resume k)). split.
  - intros Hk. unfold_handlers. rewrite Hk. reduce_state.
    unfold on_refs, on_loop, with_skipJustHappenedRef. simpl.
    destruct (canplayListener (refs w)) as [[l q]|]; [|repeat split; reflexivity].
    destruct (l =? listener)%nat; repeat split; reflexivity.
  - intros Hk. unfold_handlers. rewrite Hk. reflexivity.
Qed.

Lemma canplay_tail_detaches_itself_witness :
  let w := run [ClickNext; AudioCanPlay; SpeechEvent 0 UttEnd; Resume 0] samplePage in
  suspended (loop w) = [CanPlay_played 0]
  /\ skipJustHappenedRef (refs w) = true
  /\ skipJustHappenedRef (refs (step (Resume 0) w)) = false
  /\ canplayListener (refs (step (Resume 0) w)) = None.
Proof.
  intros w.
  destruct (canplay_tail_detaches_itself w 0 0) as [Hend _].
  destruct Hend as (Hskip & _ & _ & Hl); [vm_compute; reflexivity|].
  split; [vm_compute; reflexivity|]. split; [vm_compute; reflexivity|].
  split; [exact Hskip|]. rewrite Hl. vm_compute. reflexivity.
Defined.
